(** * Coexpression of protein-complex subunits: a shallow embedding of
    [halflife/coexpression.py] and the properties of its four components
    (Coexpression Aggregator, Ambiguity Resolver, Complex Table Builder,
    Paired Significance Tester).

    Conventions of the embedding.
    - Python exceptions are values of [exn]; a computation that can raise
      has type [result A]; a computation that also touches files has type
      [io A] (state passing over [world], error inside).
    - numpy floats are modelled by [float]: exact rationals extended with
      [NaN].  Rounding, overflow and infinities are not modelled.
    - A Python [dict] whose iteration order matters is an association list
      in insertion order ([dict]); the classification lookup, which is only
      queried, is a [gmap].
    - The external collaborators ([ix.dbloader.LoadCorum],
      [coexpressdb.Coexpression], [str] and [float] on numbers) are section
      variables. *)

From Stdlib Require Import QArith Qcanon Permutation.
From stdpp Require Import base numbers list sorting strings gmap.

Local Open Scope string_scope.
Local Open Scope list_scope.

(** ** Exceptions and the error monad *)

Inductive exn : Type :=
  | IndexError
  | KeyError
  | ValueError
  | TypeError
  | AttributeError
  | UnboundLocalError
  | FileNotFoundError.

Definition result (A : Type) : Type := (exn + A)%type.

Definition ret {A} (x : A) : result A := inr x.
Definition raise {A} (e : exn) : result A := inl e.

Definition bind {A B} (m : result A) (k : A -> result B) : result B :=
  match m with
  | inl e => inl e
  | inr x => k x
  end.

Notation "'let*' x ':=' m 'in' k" := (bind m (fun x => k))
  (at level 10, x pattern, m at level 100, k at level 200).

(** A [for] loop whose body can raise: the state is threaded from left to
    right and the first exception aborts the loop. *)
Fixpoint foldM {A S} (body : S -> A -> result S) (s : S) (l : list A)
  : result S :=
  match l with
  | [] => ret s
  | x :: l' => let* s' := body s x in foldM body s' l'
  end.

(** [l[i]] on a Python list. *)
Definition getitem {A} (l : list A) (i : nat) : result A :=
  match l !! i with
  | Some x => ret x
  | None => raise IndexError
  end.

(** ** Numbers *)

Inductive float : Type :=
  | Fin (q : Qc)
  | NaN.

Definition float_add (a b : float) : float :=
  match a, b with
  | Fin x, Fin y => Fin (x + y)%Qc
  | _, _ => NaN
  end.

Definition float_div_nat (a : float) (n : nat) : float :=
  match a, n with
  | Fin x, S _ => Fin (x / Qc_of_Z (Z.of_nat n))%Qc
  | _, _ => NaN
  end.

(** [a > b]; every comparison with [NaN] is false. *)
Definition float_gt (a b : float) : bool :=
  match a, b with
  | Fin x, Fin y => bool_decide (y < x)%Qc
  | _, _ => false
  end.

(** [a == b] on two distinct float objects. *)
Definition float_eqb (a b : float) : bool :=
  match a, b with
  | Fin x, Fin y => bool_decide (x = y)
  | _, _ => false
  end.

(** [l1 == l2] on two lists of floats built independently. *)
Fixpoint float_list_eqb (l1 l2 : list float) : bool :=
  match l1, l2 with
  | [], [] => true
  | a :: l1', b :: l2' => float_eqb a b && float_list_eqb l1' l2'
  | _, _ => false
  end.

Definition float_sum (l : list float) : float := foldl float_add (Fin 0%Qc) l.

(** [np.mean]: the sum divided by the number of elements; on the empty list
    numpy divides zero by zero and yields [nan]. *)
Definition np_mean (l : list float) : float :=
  float_div_nat (float_sum l) (length l).


(** ** Python values held in records and in the average map *)

Inductive pyval : Type :=
  | VStr (s : string)
  | VFloat (f : float)
  | VList (l : list float)
  | VNone.

(** [v == 'NA'] *)
Definition is_NA (v : pyval) : bool :=
  match v with
  | VStr s => bool_decide (s = "NA")
  | _ => false
  end.

(** [t.count('NA')] on a tuple or list of values. *)
Definition count_NA (t : list pyval) : nat := length (filter (fun v => is_NA v = true) t).

(** ** Insertion-ordered dictionaries *)

Definition dict (V : Type) : Type := list (string * V).

Fixpoint dict_get {V} (d : dict V) (k : string) : option V :=
  match d with
  | [] => None
  | (k', v) :: d' => if bool_decide (k' = k) then Some v else dict_get d' k
  end.

(** [d[k] = v]: an existing key keeps its position, a new key goes last. *)
Fixpoint dict_set {V} (d : dict V) (k : string) (v : V) : dict V :=
  match d with
  | [] => [(k, v)]
  | (k', v') :: d' =>
      if bool_decide (k' = k) then (k', v) :: d' else (k', v') :: dict_set d' k v
  end.

Definition dict_keys {V} (d : dict V) : list string := d.*1.

(** [d[k]] *)
Definition dict_getitem {V} (d : dict V) (k : string) : result V :=
  match dict_get d k with
  | Some v => ret v
  | None => raise KeyError
  end.

(** ** Strings *)

Fixpoint join (sep : string) (l : list string) : string :=
  match l with
  | [] => ""
  | [s] => s
  | s :: l' => s +:+ sep +:+ join sep l'
  end.

Definition tab : string := String (Ascii.ascii_of_nat 9) "".
Definition newline : string := String (Ascii.ascii_of_nat 10) "".

(** ASCII white space as recognised by [str.strip] and [str.split]. *)
Definition is_space (c : Ascii.ascii) : bool :=
  let n := Ascii.nat_of_ascii c in
  ((9 <=? n)%nat && (n <=? 13)%nat) || ((28 <=? n)%nat && (n <=? 32)%nat).

Fixpoint lstrip (s : string) : string :=
  match s with
  | String c s' => if is_space c then lstrip s' else s
  | EmptyString => EmptyString
  end.

Fixpoint rstrip (s : string) : string :=
  match s with
  | String c s' =>
      match rstrip s' with
      | EmptyString => if is_space c then EmptyString else String c EmptyString
      | r => String c r
      end
  | EmptyString => EmptyString
  end.

(** [s.strip()] *)
Definition strip (s : string) : string := rstrip (lstrip s).

(** [s.split(sep)] for a one-character separator: always at least one
    field. *)
Fixpoint split_on (sep : Ascii.ascii) (s : string) : list string :=
  match s with
  | EmptyString => [EmptyString]
  | String c s' =>
      if Ascii.eqb c sep then EmptyString :: split_on sep s'
      else match split_on sep s' with
           | f :: fs => String c f :: fs
           | [] => [String c EmptyString]
           end
  end.

(** [s.split()]: fields separated by runs of white space, no empty
    field. *)
Fixpoint split_ws_go (cur : string) (s : string) : list string :=
  match s with
  | EmptyString => if bool_decide (cur = "") then [] else [String.rev cur]
  | String c s' =>
      if is_space c
      then (if bool_decide (cur = "") then split_ws_go "" s'
            else String.rev cur :: split_ws_go "" s')
      else split_ws_go (String c cur) s'
  end.

Definition split_ws (s : string) : list string := split_ws_go "" s.

(** Iterating an open text file: the lines, each with its terminating
    newline except possibly the last. *)
Fixpoint file_lines_go (cur : string) (s : string) : list string :=
  match s with
  | EmptyString => if bool_decide (cur = "") then [] else [String.rev cur]
  | String c s' =>
      if Ascii.eqb c (Ascii.ascii_of_nat 10)
      then String.rev (String c cur) :: file_lines_go "" s'
      else file_lines_go (String c cur) s'
  end.

Definition file_lines (s : string) : list string := file_lines_go "" s.

Definition is_lower (c : Ascii.ascii) : bool :=
  let n := Ascii.nat_of_ascii c in (97 <=? n)%nat && (n <=? 122)%nat.
Definition is_upper (c : Ascii.ascii) : bool :=
  let n := Ascii.nat_of_ascii c in (65 <=? n)%nat && (n <=? 90)%nat.
Definition to_upper (c : Ascii.ascii) : Ascii.ascii :=
  if is_lower c then Ascii.ascii_of_nat (Ascii.nat_of_ascii c - 32) else c.
Definition to_lower (c : Ascii.ascii) : Ascii.ascii :=
  if is_upper c then Ascii.ascii_of_nat (Ascii.nat_of_ascii c + 32) else c.

(** [s.title()] on ASCII: a letter is upper-cased after a non-letter and
    lower-cased after a letter. *)
Fixpoint title_go (prev_cased : bool) (s : string) : string :=
  match s with
  | EmptyString => EmptyString
  | String c s' =>
      let cased := is_lower c || is_upper c in
      String (if prev_cased then to_lower c else to_upper c) (title_go cased s')
  end.

Definition title (s : string) : string := title_go false s.

(** The truth value of a string used as a condition. *)
Definition truthy (s : string) : bool := negb (bool_decide (s = "")).

(** ** Sorting

    [list.sort(key=...)] is a stable sort on keys that are pairs of
    integers, compared lexicographically.  The model is the stable
    insertion sort. *)

Definition key_le (a b : nat * nat) : bool :=
  (a.1 <? b.1)%nat || ((a.1 =? b.1)%nat && (a.2 <=? b.2)%nat).

Fixpoint insert_by {A} (key : A -> nat * nat) (x : A) (l : list A) : list A :=
  match l with
  | [] => [x]
  | y :: l' => if key_le (key x) (key y) then x :: l else y :: insert_by key x l'
  end.

Definition sort_by {A} (key : A -> nat * nat) (l : list A) : list A :=
  foldr (insert_by key) [] l.

(** ** The pseudorandom source and [random.shuffle] *)

(** The process-wide generator is an infinite tape of draws. *)
Definition rng : Type := nat -> nat.

Definition randbelow (n : nat) (g : rng) : nat * rng :=
  (g 0 mod n, fun k => g (S k)).

(** One iteration of the shuffle loop: [j = randbelow(i + 1)] and
    [x[i], x[j] = x[j], x[i]]. *)
Definition shuffle_step {A} (st : rng * list A) (i : nat) : rng * list A :=
  let '(j, g') := randbelow (S i) st.1 in
  match st.2 !! i, st.2 !! j with
  | Some xi, Some xj => (g', <[j := xi]> (<[i := xj]> st.2))
  | _, _ => (g', st.2)
  end.

(** [random.shuffle(x)]: [for i in reversed(range(1, len(x)))]. *)
Definition random_shuffle {A} (g : rng) (x : list A) : rng * list A :=
  foldl shuffle_step (g, x) (rev (seq 1 (length x - 1))).

(** ** The exact binomial test *)

Fixpoint choose (n k : nat) : nat :=
  match n, k with
  | _, O => 1
  | O, S _ => 0
  | S n', S k' => choose n' k' + choose n' k
  end.

Definition Qc_of_nat (n : nat) : Qc := Qc_of_Z (Z.of_nat n).

(** [scipy.stats.binom_test(x, n)] with its defaults [p = 0.5] and
    [alternative = 'two-sided']: the total probability, under the
    binomial law with [n] trials and success probability one half, of the
    outcomes that are at most as likely as [x].  The probability of [i]
    successes is [choose n i / 2 ^ n].  scipy refuses [n < x]. *)
Definition binom_test (x n : nat) : result float :=
  if (n <? x)%nat then raise ValueError
  else
    let d := choose n x in
    let tail := filter (fun i => (choose n i <= d)%nat) (seq 0 (S n)) in
    let pval := (Qc_of_nat (sum_list (choose n <$> tail)) / Qc_of_nat (2 ^ n))%Qc in
    ret (Fin (if bool_decide (1 < pval)%Qc then 1%Qc else pval)).

(** ** Complexes, the complex database and the world of files *)

Record Complex : Type := {
  entrez : list (list string);
  uniprot : list (list string)
}.

(** The object returned by [LoadCorum]: [core.strucs] and [core[struc]]. *)
Record Corum : Type := {
  strucs : list string;
  complexes : gmap string Complex
}.

Definition Corum_getitem (core : Corum) (struc : string) : result Complex :=
  match complexes core !! struc with
  | Some comp => ret comp
  | None => raise KeyError
  end.

(** The coexpression object: [coex.get_coexpression(a, b)] returns a
    correlation or [None]. *)
Definition Coex : Type := string -> string -> option float.

Inductive event : Type :=
  | EvLoadCorum (species kind : string)
  | EvCoexpression
  | EvOpenRead (name : string)
  | EvOpenWrite (name : string)
  | EvWrite (name : string) (text : string).

Record world : Type := {
  files : gmap string string;
  log : list event
}.

Definition emit (e : event) (w : world) : world :=
  {| files := files w; log := log w ++ [e] |}.

Definition io (A : Type) : Type := world -> result A * world.

Definition io_ret {A} (x : A) : io A := fun w => (ret x, w).

Definition io_bind {A B} (m : io A) (k : A -> io B) : io B :=
  fun w =>
    match m w with
    | (inl e, w') => (inl e, w')
    | (inr x, w') => k x w'
    end.

Definition lift {A} (m : result A) : io A := fun w => (m, w).

Notation "'do!' x ':=' m 'in' k" := (io_bind m (fun x => k))
  (at level 10, x pattern, m at level 100, k at level 200).

Fixpoint for_io {A} (l : list A) (body : A -> io unit) : io unit :=
  match l with
  | [] => io_ret tt
  | x :: l' => do! _ := body x in for_io l' body
  end.

(** [open(name)]: the whole text of an existing file. *)
Definition open_read (name : string) : io string :=
  fun w =>
    let w' := emit (EvOpenRead name) w in
    match files w !! name with
    | Some text => (ret text, w')
    | None => (raise FileNotFoundError, w')
    end.

(** [open(name, 'w')]: the file is created or truncated. *)
Definition open_write (name : string) : io unit :=
  fun w =>
    (ret tt, {| files := <[name := ""]> (files w);
                log := log w ++ [EvOpenWrite name] |}).

(** [outfile.write(text)] *)
Definition write (name : string) (text : string) : io unit :=
  fun w =>
    (ret tt, {| files := <[name := default "" (files w !! name) +:+ text]> (files w);
                log := log w ++ [EvWrite name text] |}).

(** [e in log w] for some opening of a file for writing. *)
Definition is_open_write (e : event) : bool :=
  match e with
  | EvOpenWrite _ | EvWrite _ _ => true
  | _ => false
  end.

(** ** The program *)

Section Program.

(** [str(x)] on a numpy float. *)
Variable float_str : float -> string.
(** [float(s)]; [None] stands for the [ValueError] of a string that is not
    a number. *)
Variable py_float : string -> option float.
(** [ix.dbloader.LoadCorum(species, kind)] *)
Variable LoadCorum : string -> string -> result Corum.
(** [coexpressdb.Coexpression()] *)
Variable Coexpression : result Coex.

(** [str(item)] *)
Definition py_str (v : pyval) : string :=
  match v with
  | VStr s => s
  | VFloat f => float_str f
  | VList l => "[" +:+ join ", " (float_str <$> l) +:+ "]"
  | VNone => "None"
  end.

Definition float_of (s : string) : result float :=
  match py_float s with
  | Some x => ret x
  | None => raise ValueError
  end.

(** *** [load_data] *)

Definition load_data (filename : string)
  : io (list string * list (list string)) :=
  do! text := open_read filename in
  let data := split_ws <$> file_lines text in
  lift (let* header := getitem data 0 in
        ret (header, drop 1 data)).

(** *** [calculate_avg_coexpression] *)

(** The body of [for protein2 in avg_coex]. *)
Definition avg_inner (coex : Coex) (protein : string)
    (avg_coex : dict pyval) (protein2 : string) : result (dict pyval) :=
  if bool_decide (protein = protein2) then ret avg_coex
  else
    match coex protein protein2 with
    | None => ret avg_coex
    | Some cor =>
        let* cur := dict_getitem avg_coex protein in
        match cur with
        | VList l => ret (dict_set avg_coex protein (VList (l ++ [cor])))
        | _ => raise AttributeError
        end
    end.

(** The body of [for protein in avg_coex]. *)
Definition avg_outer (coex : Coex) (avg_coex : dict pyval) (protein : string)
  : result (dict pyval) :=
  let* avg_coex := foldM (avg_inner coex protein) avg_coex (dict_keys avg_coex) in
  let* cur := dict_getitem avg_coex protein in
  match cur with
  | VList l =>
      if (length l <? 1)%nat
      then ret (dict_set avg_coex protein (VStr "NA"))
      else ret (dict_set avg_coex protein (VFloat (np_mean l)))
  | _ => raise TypeError
  end.

Definition calculate_avg_coexpression (coex : Coex) (members : list string)
  : result (dict pyval) :=
  let avg_coex := foldl (fun d protein => dict_set d protein (VList [])) [] members in
  foldM (avg_outer coex) avg_coex (dict_keys avg_coex).

(** *** [match_entrez_to_uniprot] *)

(** [l.index(x)] for an [x] known to be in [l]. *)
Fixpoint list_index (x : string) (l : list string) : nat :=
  match l with
  | [] => 0
  | y :: l' => if bool_decide (y = x) then 0 else S (list_index x l')
  end.

(** The loop [for i in range(len(comp.entrez))] from index [i] on; falling
    off the end of the function returns [None]. *)
Fixpoint match_from (comp : Complex) (entrezid : string) (idxs : list nat)
  : result pyval :=
  match idxs with
  | [] => ret VNone
  | i :: idxs' =>
      let* slot := getitem (entrez comp) i in
      if bool_decide (entrezid ∈ slot) then
        let* uslot := getitem (uniprot comp) i in
        let* u := getitem uslot (list_index entrezid slot) in
        ret (VStr u)
      else match_from comp entrezid idxs'
  end.

Definition match_entrez_to_uniprot (comp : Complex) (entrezid : string)
  : result pyval :=
  match_from comp entrezid (seq 0 (length (entrez comp))).

(** *** The records of [process_corum_data] *)

(** The tuple [(struc, sub, upr, coexpression, uprdef, species)]. *)
Record info : Type := {
  i_struc : pyval;
  i_sub : pyval;
  i_upr : pyval;
  i_coexpression : pyval;
  i_uprdef : pyval;
  i_species : pyval
}.

Definition fields (x : info) : list pyval :=
  [i_struc x; i_sub x; i_upr x; i_coexpression x; i_uprdef x; i_species x].

(** [decay_defs.get(upr, 'NA')] *)
Definition decay_get (decay_defs : gmap string string) (upr : pyval) : pyval :=
  match upr with
  | VStr u => VStr (default "NA" (decay_defs !! u))
  | _ => VStr "NA"
  end.

(** The variables of the enclosing function that the nested helper and
    the loop body read. *)
Section Slot.

Variable species : string.
Variable decay_defs : gmap string string.
Variable struc : string.
Variable comp : Complex.
Variable avg_coex : dict pyval.

Definition candidate (sub : string) : result info :=
  let* upr := match_entrez_to_uniprot comp sub in
  let* coexpression := dict_getitem avg_coex sub in
  let uprdef := decay_get decay_defs upr in
  ret {| i_struc := VStr struc; i_sub := VStr sub; i_upr := upr;
         i_coexpression := coexpression; i_uprdef := uprdef;
         i_species := VStr species |}.

(** [lambda x: (x.count('NA'), [x[3]].count('NA'))] *)
Definition sort_key (x : info) : nat * nat :=
  (count_NA (fields x), count_NA [i_coexpression x]).

Definition get_best_from_multiple_subs (subunits : list string)
  : result (list string) :=
  let* possibilities :=
    foldM (fun acc sub => let* c := candidate sub in ret (acc ++ [c]))
          [] subunits in
  let possibilities := sort_by sort_key possibilities in
  let* best := getitem possibilities 0 in
  ret (py_str <$> fields best).

(** The body of [for subunit in comp.entrez], up to the row it writes. *)
Definition slot_info (subunit : list string) : result (list string) :=
  if bool_decide (length subunit = 1%nat) then
    let* sub0 := getitem subunit 0 in
    let* c := candidate sub0 in
    ret (py_str <$> fields c)
  else get_best_from_multiple_subs subunit.

End Slot.

(** *** [process_corum_data] *)

Definition build_decay_defs (data : list (list string))
  : result (gmap string string) :=
  foldM (fun m line =>
           let* k := getitem line 0 in
           match last line with
           | Some v => ret (<[k := v]> m)
           | None => raise IndexError
           end) ∅ data.

Definition ofname (species : string) : string :=
  "data/coexpressdb_corum_" +:+ species +:+ ".tsv".

Definition header : string :=
  join tab ["comp"; "entrez"; "uniprot"; "avg.coex"; "def"] +:+ newline.

(** The body of [for struc in core.strucs]. *)
Definition process_struc (species : string) (core : Corum) (coex : Coex)
    (decay_defs : gmap string string) (struc : string) : io unit :=
  do! comp := lift (Corum_getitem core struc) in
  let entrez_list := concat (entrez comp) in
  do! avg_coex := lift (calculate_avg_coexpression coex entrez_list) in
  for_io (entrez comp) (fun subunit =>
    do! row := lift (slot_info species decay_defs struc comp avg_coex subunit) in
    write (ofname species) (join tab row +:+ newline)).

Definition process_corum_data (species : string) : io unit :=
  do! core := (fun w => (LoadCorum (title species) "core",
                         emit (EvLoadCorum (title species) "core") w)) in
  do! coex := (fun w => (Coexpression, emit EvCoexpression w)) in
  do! data :=
    (if bool_decide (species = "human") then
       do! hd := load_data "data/NED_human.txt" in io_ret (Some hd.2)
     else if bool_decide (species = "mouse") then
       do! hd := load_data "data/NED_mouse_update.txt" in io_ret (Some hd.2)
     else io_ret None) in
  do! data := lift (match data with
                    | Some d => ret d
                    | None => raise UnboundLocalError
                    end) in
  do! decay_defs := lift (build_decay_defs data) in
  do! _ := open_write (ofname species) in
  do! _ := write (ofname species) header in
  for_io (strucs core) (process_struc species core coex decay_defs).

(** *** [analyse_corum_data] *)

(** [line[-3:-1]]: a slice never raises; on a short list it is shorter. *)
Definition slice_m3_m1 {A} (line : list A) : list A :=
  let start := length line - 3 in
  let stop := length line - 1 in
  take (stop - start) (drop start line).

(** [[line.strip().split('\t') for line in infile if '']] *)
Definition read_rows (text : string) : list (list string) :=
  (fun line => split_on (Ascii.ascii_of_nat 9) (strip line))
    <$> filter (fun _ => truthy "" = true) (file_lines text).

(** [strucs = {line[0]: [] for line in data}] followed by the loop that
    appends [tuple(line[-3:-1])] to [strucs[line[0]]]. *)
Definition group_rows (data : list (list string))
  : result (dict (list (list string))) :=
  let* strucs0 :=
    foldM (fun d line => let* k := getitem line 0 in ret (dict_set d k []))
          [] data in
  foldM (fun d line =>
           let* k := getitem line 0 in
           let* rows := dict_getitem d k in
           ret (dict_set d k (rows ++ [slice_m3_m1 line])))
        strucs0 data.

(** The block under [if rand == True]: the labels of the complex are
    shuffled and written back row by row. *)
Definition shuffle_labels (g : rng) (comp : list (list string))
  : result (rng * list (list string)) :=
  let* def_dist := foldM (fun acc subunit =>
                            let* d := getitem subunit 1 in ret (acc ++ [d]))
                         [] comp in
  let '(g', def_dist) := random_shuffle g def_dist in
  let* comp' :=
    foldM (fun c i =>
             let* ci := getitem c i in
             let* v := getitem ci 0 in
             let* d := getitem def_dist i in
             ret (<[i := [v; d]]> c))
          comp (seq 0 (length def_dist)) in
  ret (g', comp').

(** The loop [for subunit in comp] that fills [nvals] and [evals]. *)
Definition partition_step (acc : list float * list float)
    (subunit : list string) : result (list float * list float) :=
  let* v := getitem subunit 0 in
  if bool_decide (v = "NA") then ret acc
  else
    let* l := getitem subunit 1 in
    if bool_decide (l = "NED") then
      let* x := float_of v in ret (acc.1 ++ [x], acc.2)
    else if bool_decide (l = "ED") then
      let* x := float_of v in ret (acc.1, acc.2 ++ [x])
    else ret acc.

Definition partition_rows (comp : list (list string))
  : result (list float * list float) :=
  foldM partition_step ([], []) comp.

Record tester : Type := {
  t_strucs : dict (list (list string));
  t_success : nat;
  t_trials : nat;
  t_plot : list string;
  t_rng : rng
}.

(** The body of [for struc in strucs].  [rand] is the module-level flag
    the function reads; it is not defined in the file and is a parameter
    here. *)
Definition analyse_struc (rand : bool) (st : tester) (struc : string)
  : result tester :=
  let* comp := dict_getitem (t_strucs st) struc in
  let* gc := (if rand then shuffle_labels (t_rng st) comp
              else ret (t_rng st, comp)) in
  let comp := gc.2 in
  let st := {| t_strucs := (if rand then dict_set (t_strucs st) struc comp
                            else t_strucs st);
               t_success := t_success st; t_trials := t_trials st;
               t_plot := t_plot st; t_rng := gc.1 |} in
  if bool_decide (length comp <= 2)%nat then ret st
  else
    let* ne := partition_rows comp in
    let nvals := ne.1 in
    let evals := ne.2 in
    if bool_decide (length nvals = 0%nat) || bool_decide (length evals = 0%nat)
       || float_list_eqb nvals evals
    then ret st
    else
      ret {| t_strucs := t_strucs st;
             t_success := (if float_gt (np_mean nvals) (np_mean evals)
                           then S (t_success st) else t_success st);
             t_trials := S (t_trials st);
             t_plot := t_plot st ++ [struc];
             t_rng := t_rng st |}.

(** The loop over the grouped table, from the reset of the counters to
    the values that are printed. *)
Definition analyse_strucs (rand : bool) (g : rng)
    (strucs : dict (list (list string))) : result (nat * nat * float) :=
  let st0 := {| t_strucs := strucs; t_success := 0; t_trials := 0;
                t_plot := []; t_rng := g |} in
  let* st := foldM (analyse_struc rand) st0 (dict_keys strucs) in
  let* p := binom_test (t_success st) (t_trials st) in
  ret (t_success st, t_trials st, p).

(** The printed triple [(success, trials, p-value)]. *)
Definition analyse_corum_data (rand : bool) (g : rng) (filename : string)
  : io (nat * nat * float) :=
  do! text := open_read filename in
  lift (let* strucs := group_rows (read_rows text) in
        analyse_strucs rand g strucs).

(** *** [main] *)

Definition main (rand : bool) (g : rng) : io (nat * nat * float) :=
  analyse_corum_data rand g "data/coexpressdb_corum_combined.tsv".

End Program.

(** ** Specification-level definitions *)

(** The ids of a membership list, each once, in order of first
    occurrence. *)
Fixpoint distinct (l : list string) : list string :=
  match l with
  | [] => []
  | x :: l' => x :: filter (fun y => y ≠ x) (distinct l')
  end.

(** The defined scores between [p] and every other id of the list. *)
Definition usable_scores (coex : Coex) (members : list string) (p : string)
  : list float :=
  omap (coex p) (filter (fun q => q ≠ p) (distinct members)).

Definition mean_or_NA (l : list float) : pyval :=
  match l with
  | [] => VStr "NA"
  | _ => VFloat (np_mean l)
  end.

Definition Qc_sum (l : list Qc) : Qc := foldr Qcplus 0%Qc l.

(** A dictionary whose keys are [ks] and whose values are given by [f]. *)
Definition tabulate {V} (f : string -> V) (ks : list string) : dict V :=
  (fun k => (k, f k)) <$> ks.

(** [b] is the first element of [l] that has the least key: the keys
    before it are strictly greater, the keys after it are not smaller. *)
Definition first_least {A} (key : A -> nat * nat) (b : A) (l : list A) : Prop :=
  ∃ l1 l2, l = l1 ++ b :: l2
    ∧ Forall (fun c => key_le (key c) (key b) = false) l1
    ∧ Forall (fun c => key_le (key b) (key c) = true) l2.


(** [cands] are the candidate tuples of the ids [subunits], in order. *)
Definition candidates_of (species : string) (decay_defs : gmap string string)
    (struc : string) (comp : Complex) (avg_coex : dict pyval)
    (subunits : list string) (cands : list info) : Prop :=
  Forall2 (fun sub c => candidate species decay_defs struc comp avg_coex sub = inr c)
          subunits cands.

(** *** The grouped table of the Significance Tester *)

(** The value field and the label field of a grouped row. *)
Definition row_value (r : list string) : string := default "" (r !! 0).
Definition row_label (r : list string) : string := default "" (r !! 1).

(** Every row is a (value, label) pair. *)
Definition pairs (comp : list (list string)) : Prop :=
  Forall (fun r => length r = 2%nat) comp.

Section TesterSpec.

Variable py_float : string -> option float.

(** Every value other than ['NA'] is a number. *)
Definition numeric (comp : list (list string)) : Prop :=
  Forall (fun r => row_value r ≠ "NA" -> is_Some (py_float (row_value r))) comp.

(** The values of the rows that are not ['NA'] and carry the label
    [lbl], in row order. *)
Definition row_values (lbl : string) (comp : list (list string)) : list float :=
  omap (fun r => if bool_decide (row_value r ≠ "NA" ∧ row_label r = lbl)
                 then py_float (row_value r) else None) comp.

(** The complex is a trial: more than two rows, both partitions
    non-empty, and the partitions not equal as lists. *)
Definition contributes (comp : list (list string)) : bool :=
  bool_decide (2 < length comp)%nat
  && negb (bool_decide (row_values "NED" comp = []))
  && negb (bool_decide (row_values "ED" comp = []))
  && negb (float_list_eqb (row_values "NED" comp) (row_values "ED" comp)).

(** The complex is a success: a trial in which the mean of the NED values
    exceeds the mean of the ED values. *)
Definition succeeds (comp : list (list string)) : bool :=
  contributes comp
  && float_gt (np_mean (row_values "NED" comp)) (np_mean (row_values "ED" comp)).

End TesterSpec.

(** Null mode on one complex: the labels are shuffled among the rows, the
    values stay where they are. *)
Definition relabelled (g : rng) (comp : list (list string))
  : rng * list (list string) :=
  let gl := random_shuffle g (row_label <$> comp) in
  (gl.1, zip_with (fun r l => [row_value r; l]) comp gl.2).

Definition null_mode (rand : bool) (g : rng) (comp : list (list string))
  : rng * list (list string) :=
  if rand then relabelled g comp else (g, comp).



(** *** Identifier resolution *)

(** The primary id belongs to the complex. *)
Definition member_of (comp : Complex) (sub : string) : Prop :=
  sub ∈ concat (entrez comp).

(** The secondary id aligned with a primary id in the parallel lists of
    the complex: the first slot whose primary list holds the id, and in
    that slot's secondary list the position of the first occurrence of
    the id. *)
Definition resolve (comp : Complex) (sub : string) : option string :=
  match list_find (fun slot => sub ∈ slot) (entrez comp) with
  | Some (i, slot) =>
      match uniprot comp !! i, list_find (fun x => x = sub) slot with
      | Some uslot, Some (j, _) => uslot !! j
      | _, _ => None
      end
  | None => None
  end.

(** The record of a subunit slot resolved to the primary id [sub] with
    secondary id [u]: an id absent from the classification lookup gets
    the label ['NA']. *)
Definition record_of (species : string) (decay_defs : gmap string string)
    (struc sub u : string) (coexpression : pyval) : info :=
  {| i_struc := VStr struc; i_sub := VStr sub; i_upr := VStr u;
     i_coexpression := coexpression;
     i_uprdef := VStr (default "NA" (decay_defs !! u));
     i_species := VStr species |}.

(** ** Sample data *)

Definition half : Qc := (1 / Qc_of_nat 2)%Qc.
Definition two : Qc := Qc_of_nat 2.
Definition three_halves : Qc := (Qc_of_nat 3 / Qc_of_nat 2)%Qc.

(** A [float] that reads the few numerals used below. *)
Definition demo_float (s : string) : option float :=
  if bool_decide (s = "1.0") then Some (Fin 1%Qc)
  else if bool_decide (s = "2.0") then Some (Fin two)
  else if bool_decide (s = "0.5") then Some (Fin half)
  else if bool_decide (s = "1.5") then Some (Fin three_halves)
  else if bool_decide (s = "nan") then Some NaN
  else None.

(** The matching [str]. *)
Definition demo_str (f : float) : string :=
  match f with
  | NaN => "nan"
  | Fin q =>
      if bool_decide (q = 1%Qc) then "1.0"
      else if bool_decide (q = two) then "2.0"
      else if bool_decide (q = half) then "0.5"
      else if bool_decide (q = three_halves) then "1.5"
      else "0.0"
  end.

(** Scores between the ids 1, 2 and 3; id 4 has none. *)
Definition demo_coex : Coex := fun a b =>
  if bool_decide (a = "1" ∧ b = "2" ∨ a = "2" ∧ b = "1") then Some (Fin 1%Qc)
  else if bool_decide (a = "1" ∧ b = "3" ∨ a = "3" ∧ b = "1") then Some (Fin two)
  else if bool_decide (a = "2" ∧ b = "3" ∨ a = "3" ∧ b = "2") then Some (Fin two)
  else None.

(** A complex with an ambiguous second slot. *)
Definition demo_comp : Complex :=
  {| entrez := [["1"]; ["2"; "3"]; ["4"]];
     uniprot := [["P1"]; ["P2"; "P3"]; ["P4"]] |}.

(** The same complex with the secondary ids of the last slot missing. *)
Definition broken_comp : Complex :=
  {| entrez := [["1"]; ["2"; "3"]; ["4"]];
     uniprot := [["P1"]; ["P2"; "P3"]; []] |}.

Definition demo_core : Corum :=
  {| strucs := ["c1"]; complexes := {["c1" := demo_comp]} |}.

Definition broken_core : Corum :=
  {| strucs := ["c1"]; complexes := {["c1" := broken_comp]} |}.

Definition demo_LoadCorum (species kind : string) : result Corum := inr demo_core.
Definition broken_LoadCorum (species kind : string) : result Corum := inr broken_core.
Definition demo_Coexpression : result Coex := inr demo_coex.

Definition demo_decay : gmap string string :=
  <["P3" := "NED"]> (<["P1" := "ED"]> ∅).

Definition demo_decay_file : string :=
  "id halflife def" +:+ newline +:+ "P1 10 ED" +:+ newline
  +:+ "P3 20 NED" +:+ newline.

Definition demo_world : world :=
  {| files := {["data/NED_human.txt" := demo_decay_file]}; log := [] |}.

(** The average map of [demo_comp] under [demo_coex]. *)
Definition demo_avg : dict pyval :=
  [("1", VFloat (np_mean [Fin 1%Qc; Fin two]));
   ("2", VFloat (np_mean [Fin 1%Qc; Fin two]));
   ("3", VFloat (np_mean [Fin two; Fin two]));
   ("4", VStr "NA")].

(** The table that [process_corum_data] writes for [demo_core]. *)
Definition demo_table : string :=
  header
  +:+ join tab ["c1"; "1"; "P1"; "1.5"; "ED"; "human"] +:+ newline
  +:+ join tab ["c1"; "3"; "P3"; "2.0"; "NED"; "human"] +:+ newline
  +:+ join tab ["c1"; "4"; "P4"; "NA"; "NA"; "human"] +:+ newline.



Definition zero_rng : rng := fun _ => 0%nat.

Definition table_world : world :=
  {| files := {["data/coexpressdb_corum_combined.tsv" := demo_table]};
     log := [] |}.

(** The (value, label) pairs of the rows of [demo_table], by complex. *)
Definition demo_pairs : dict (list (list string)) :=
  [("c1", [["1.5"; "ED"]; ["2.0"; "NED"]; ["NA"; "NA"]])].


Definition demo_tester (strucs : dict (list (list string))) : tester :=
  {| t_strucs := strucs; t_success := 0; t_trials := 0; t_plot := [];
     t_rng := zero_rng |}.

(** ** Further specification-level definitions *)

(** The parallel lists of the complex are aligned: as many secondary
    slots as primary slots, and slot by slot the same number of ids. *)
Definition aligned (comp : Complex) : Prop :=
  Forall2 (fun slot uslot => length slot = length uslot)
          (entrez comp) (uniprot comp).

(** The label that the classification table gives to [k]: the last field
    of the last line whose first field is [k]. *)
Definition last_label (data : list (list string)) (k : string) : option string :=
  last (filter (fun line => head line = Some k) data) ≫= last.

(** *** The output of the Table Builder *)

(** The lines of a text, laid end to end. *)
Definition text_of (lines : list string) : string := foldr String.append "" lines.

(** The world after [texts] have been written to [name], one after the
    other. *)
Definition write_all (name : string) (texts : list string) (w : world) : world :=
  foldl (fun w text => (write name text w).2) w texts.

(** The file from which [process_corum_data] reads the classification. *)
Definition classification_file (species : string) : option string :=
  if bool_decide (species = "human") then Some "data/NED_human.txt"
  else if bool_decide (species = "mouse") then Some "data/NED_mouse_update.txt"
  else None.

(** The slots of the complexes of the database, in the order in which the
    builder visits them. *)
Definition slots_of (core : Corum) : list (string * Complex * list string) :=
  struc ← strucs core;
  match complexes core !! struc with
  | Some comp => (fun subunit => (struc, comp, subunit)) <$> entrez comp
  | None => []
  end.

(** Every listed complex is in the database, its parallel lists are
    aligned and none of its slots is empty. *)
Definition well_formed (core : Corum) : Prop :=
  ∀ struc, struc ∈ strucs core ->
    ∃ comp, complexes core !! struc = Some comp
      ∧ aligned comp ∧ Forall (fun subunit => subunit ≠ []) (entrez comp).

(** The line of the table for a slot resolved to [sub] and [u]. *)
Definition table_line (float_str : float -> string) (species : string)
    (data : list (list string)) (coex : Coex) (struc : string) (comp : Complex)
    (sub u : string) : string :=
  join tab [struc; sub; u;
            match usable_scores coex (concat (entrez comp)) sub with
            | [] => "NA"
            | l => float_str (np_mean l)
            end;
            default "NA" (last_label data u); species]
  +:+ newline.

(** The computation only appends to the file [name]: from a world in
    which the file holds [content] it leaves every other file alone and
    [name] with [content] followed by some text. *)
Definition appends_to (name : string) {A} (m : io A) : Prop :=
  ∀ w content, files w !! name = Some content ->
    ∃ rest, files (m w).2 = <[name := content +:+ rest]> (files w).

(** *** The grouping and the rows of the Significance Tester *)

(** The rows grouped under [k]: the slices of the lines whose first field
    is [k], in line order. *)
Definition rows_of (data : list (list string)) (k : string)
  : list (list string) :=
  slice_m3_m1 <$> filter (fun line => head line = Some k) data.

(** The row stops the partition loop: its value is not ['NA'], its label
    is one of the two classes, and its value is not a number. *)
Definition unreadable (py_float : string -> option float) (r : list string)
  : Prop :=
  row_value r ≠ "NA" ∧ (row_label r = "NED" ∨ row_label r = "ED")
  ∧ py_float (row_value r) = None.

(** *** The lines of the table *)







(** *** Further sample data *)

(** [demo_coex] with a score for every self-pair. *)
Definition self_coex : Coex := fun a b =>
  if bool_decide (a = b) then Some NaN else demo_coex a b.

(** An average map in which id 3 has no score and id 4 has one. *)
Definition priority_avg : dict pyval :=
  [("3", VStr "NA"); ("4", VFloat (Fin 1%Qc))].

Definition empty_world : world := {| files := ∅; log := [] |}.

(** A grouped complex with a value that is not a number. *)
Definition unreadable_comp : list (list string) :=
  [["1.0"; "NED"]; ["n/a"; "ED"]; ["2.0"; "ED"]].

(** Closes a decidable goal about the sample data by evaluation. *)
Ltac by_evaluation := apply (bool_decide_unpack _); by vm_compute.

(** * Properties *)

Lemma dict_keys_tabulate {V} (f : string -> V) ks :
  dict_keys (tabulate f ks) = ks.
Proof.
  unfold dict_keys, tabulate. rewrite <- list_fmap_compose.
  induction ks as [|k ks IH]; simpl; [done|]. by f_equal.
Qed.

Lemma dict_get_tabulate {V} (f : string -> V) ks k :
  k ∈ ks -> dict_get (tabulate f ks) k = Some (f k).
Proof.
  induction ks as [|k' ks IH]; intros Hin; [by apply elem_of_nil in Hin|].
  simpl. case_bool_decide as Hk; [by subst|].
  apply elem_of_cons in Hin as [->|Hin]; [done|]. by apply IH.
Qed.


Lemma tabulate_ext {V} (f g : string -> V) ks :
  (∀ k, k ∈ ks -> f k = g k) -> tabulate f ks = tabulate g ks.
Proof.
  intros H. unfold tabulate. apply list_fmap_ext.
  intros i k Hk. f_equal. apply H. by eapply list_elem_of_lookup_2.
Qed.

Lemma dict_set_tabulate {V} (f : string -> V) ks k v :
  NoDup ks -> k ∈ ks ->
  dict_set (tabulate f ks) k v
  = tabulate (fun k' => if bool_decide (k' = k) then v else f k') ks.
Proof.
  induction 1 as [|k' ks Hnin Hnd IH]; intros Hin; [by apply elem_of_nil in Hin|].
  simpl. case_bool_decide as Hk.
  - subst k'. f_equal. apply tabulate_ext. intros k0 Hk0.
    case_bool_decide; [by subst|done].
  - f_equal. apply elem_of_cons in Hin as [->|Hin]; [done|]. by apply IH.
Qed.

Lemma dict_set_tabulate_new {V} (f : string -> V) ks k :
  k ∉ ks -> dict_set (tabulate f ks) k (f k) = tabulate f (ks ++ [k]).
Proof.
  induction ks as [|k' ks IH]; intros Hnin; [done|].
  apply not_elem_of_cons in Hnin as [Hne Hnin].
  simpl. case_bool_decide; [congruence|]. f_equal. by apply IH.
Qed.

Lemma dict_set_tabulate_same {V} (f : string -> V) ks k :
  k ∈ ks -> dict_set (tabulate f ks) k (f k) = tabulate f ks.
Proof.
  induction ks as [|k' ks IH]; intros Hin; [by apply elem_of_nil in Hin|].
  simpl. case_bool_decide as Hk; [by subst|].
  f_equal. apply elem_of_cons in Hin as [->|Hin]; [done|]. by apply IH.
Qed.

Lemma distinct_elem_of l x : x ∈ distinct l ↔ x ∈ l.
Proof.
  induction l as [|y l IH]; simpl; [done|].
  rewrite !elem_of_cons, list_elem_of_filter, IH.
  destruct (decide (x = y)); naive_solver.
Qed.

Lemma distinct_NoDup l : NoDup (distinct l).
Proof.
  induction l as [|y l IH]; simpl; [constructor|].
  constructor.
  - rewrite list_elem_of_filter. naive_solver.
  - by apply NoDup_filter.
Qed.

(** The dictionary comprehension creates the keys in order of first
    occurrence. *)
Lemma init_dict_tabulate (v : pyval) members ks :
  foldl (fun d protein => dict_set d protein v) (tabulate (fun _ => v) ks) members
  = tabulate (fun _ => v) (ks ++ filter (fun x => x ∉ ks) (distinct members)).
Proof.
  revert ks. induction members as [|x l IH]; intros ks; simpl.
  - by rewrite app_nil_r.
  - destruct (decide (x ∈ ks)) as [Hin|Hnin].
    + rewrite (dict_set_tabulate_same (fun _ => v)) by done.
      rewrite IH. rewrite filter_cons_False by naive_solver.
      rewrite list_filter_filter. do 2 f_equal.
      apply list_filter_iff. intros y. naive_solver.
    + rewrite (dict_set_tabulate_new (fun _ => v)) by done.
      rewrite IH. rewrite filter_cons_True by done.
      rewrite list_filter_filter, <- app_assoc. simpl. do 3 f_equal.
      apply list_filter_iff. intros y. rewrite elem_of_app, list_elem_of_singleton.
      naive_solver.
Qed.

Lemma filter_all {A} (P : A -> Prop) `{!∀ x, Decision (P x)} (l : list A) :
  (∀ x, x ∈ l -> P x) -> filter P l = l.
Proof.
  induction l as [|x l IH]; intros Hall; [done|].
  rewrite filter_cons_True by (apply Hall; left).
  f_equal. apply IH. intros y Hy. apply Hall. by right.
Qed.

Lemma filter_none {A} (P : A -> Prop) `{!∀ x, Decision (P x)} (l : list A) :
  (∀ x, x ∈ l -> ¬ P x) -> filter P l = [].
Proof.
  induction l as [|x l IH]; intros Hall; [done|].
  rewrite filter_cons_False by (apply Hall; left).
  apply IH. intros y Hy. apply Hall. by right.
Qed.

(** The inner loop appends, in key order, the defined scores of the other
    keys to the list of [protein]. *)
Lemma avg_inner_loop coex protein ks qs f acc :
  NoDup ks -> protein ∈ ks -> f protein = VList acc ->
  ∃ f', foldM (avg_inner coex protein) (tabulate f ks) qs = inr (tabulate f' ks)
      ∧ f' protein
        = VList (acc ++ omap (coex protein) (filter (fun q => q ≠ protein) qs))
      ∧ ∀ k, k ≠ protein -> f' k = f k.
Proof.
  intros Hnd Hin. revert f acc.
  induction qs as [|q qs IH]; intros f acc Hf; simpl.
  - exists f. by rewrite app_nil_r.
  - unfold avg_inner at 1. case_bool_decide as Hq.
    + subst q. simpl. rewrite filter_cons_False by naive_solver. by apply IH.
    + rewrite filter_cons_True by naive_solver. simpl.
      destruct (coex protein q) as [cor|] eqn:Hcor; simpl; [|by apply IH].
      unfold dict_getitem. rewrite dict_get_tabulate by done. simpl.
      rewrite Hf. simpl. rewrite dict_set_tabulate by done.
      edestruct (IH (fun k' => if bool_decide (k' = protein)
                               then VList (acc ++ [cor]) else f k')
                    (acc ++ [cor])) as (f' & Hrun & Hp & Hother).
      { by rewrite bool_decide_eq_true_2. }
      exists f'. split; [done|]. split.
      * by rewrite Hp, <- app_assoc.
      * intros k Hk. rewrite Hother by done. by rewrite bool_decide_eq_false_2.
Qed.

Lemma length_ltb_1 {A} (l : list A) : (length l <? 1)%nat = bool_decide (l = []).
Proof. by destruct l. Qed.

(** The outer loop replaces every list by its mean, or by ['NA']. *)
Lemma avg_outer_loop coex ks ps f :
  NoDup ks -> NoDup ps -> ps ⊆ ks -> (∀ p, p ∈ ps -> f p = VList []) ->
  ∃ f', foldM (avg_outer coex) (tabulate f ks) ps = inr (tabulate f' ks)
      ∧ (∀ p, p ∈ ps ->
           f' p = mean_or_NA (omap (coex p) (filter (fun q => q ≠ p) ks)))
      ∧ ∀ k, k ∉ ps -> f' k = f k.
Proof.
  intros Hnd Hps. revert f.
  induction Hps as [|p ps Hnin Hps IH]; intros f Hsub Hf; simpl.
  - exists f. split; [done|]. split; [|done]. intros p Hp. by apply elem_of_nil in Hp.
  - assert (Hpk : p ∈ ks) by (apply Hsub; left).
    unfold avg_outer at 1. rewrite dict_keys_tabulate.
    destruct (avg_inner_loop coex p ks ks f [] Hnd Hpk) as (f1 & Hrun & Hp & Hother).
    { apply Hf. left. }
    rewrite Hrun. simpl. unfold dict_getitem.
    rewrite dict_get_tabulate by done. simpl in Hp |- *. rewrite Hp.
    set (l := omap (coex p) (filter (fun q => q ≠ p) ks)).
    assert (Hstep : (if (length l <? 1)%nat
                     then ret (dict_set (tabulate f1 ks) p (VStr "NA"))
                     else ret (dict_set (tabulate f1 ks) p (VFloat (np_mean l))))
                    = inr (tabulate (fun k' => if bool_decide (k' = p)
                                               then mean_or_NA l else f1 k') ks)).
    { rewrite length_ltb_1. destruct l; simpl; by rewrite dict_set_tabulate. }
    rewrite Hstep. simpl.
    edestruct (IH (fun k' => if bool_decide (k' = p) then mean_or_NA l else f1 k'))
      as (f' & Hrun' & Hps' & Hother').
    { intros x Hx. apply Hsub. by right. }
    { intros x Hx. rewrite bool_decide_eq_false_2 by (intros ->; done).
      rewrite Hother by (intros ->; done). apply Hf. by right. }
    exists f'. split; [done|]. split.
    + intros x Hx. apply elem_of_cons in Hx as [->|Hx]; [|by apply Hps'].
      rewrite Hother' by done. by rewrite bool_decide_eq_true_2.
    + intros k Hk. apply not_elem_of_cons in Hk as [Hne Hk].
      rewrite Hother' by done. rewrite bool_decide_eq_false_2 by done.
      by apply Hother.
Qed.

Lemma float_sum_Fin_from (a : Qc) (qs : list Qc) :
  foldl float_add (Fin a) (Fin <$> qs) = Fin (a + Qc_sum qs)%Qc.
Proof.
  revert a. induction qs as [|q qs IH]; intros a; simpl.
  - by rewrite Qcplus_0_r.
  - rewrite IH. by rewrite Qcplus_assoc.
Qed.

(** On finite values [np_mean] is the sum divided by the count. *)
Lemma np_mean_Fin (qs : list Qc) :
  qs ≠ [] -> np_mean (Fin <$> qs) = Fin (Qc_sum qs / Qc_of_nat (length qs))%Qc.
Proof.
  intros Hne. unfold np_mean, float_sum. rewrite float_sum_Fin_from.
  rewrite length_fmap. destruct qs; [done|]. simpl length.
  unfold float_div_nat. by rewrite Qcplus_0_l.
Qed.

(** The run of the aggregator: it returns, and the value of every id is
    the mean of its usable scores or ['NA']. *)
Lemma calculate_avg_coexpression_run (coex : Coex) (members : list string) :
  ∃ avg_coex,
    calculate_avg_coexpression coex members = inr avg_coex
    ∧ dict_keys avg_coex = distinct members
    ∧ ∀ p, p ∈ members ->
        dict_get avg_coex p = Some (mean_or_NA (usable_scores coex members p)).
Proof.
  unfold calculate_avg_coexpression.
  pose proof (init_dict_tabulate (VList []) members []) as Hinit.
  assert (Hks : filter (fun x => x ∉ []) (distinct members) = distinct members).
  { apply filter_all. intros x _. apply not_elem_of_nil. }
  rewrite Hks in Hinit. simpl in Hinit. rewrite Hinit. clear Hinit Hks.
  rewrite dict_keys_tabulate.
  destruct (avg_outer_loop coex (distinct members) (distinct members)
              (fun _ => VList [])) as (f' & Hrun & Hval & _);
    [apply distinct_NoDup | apply distinct_NoDup | done | done |].
  exists (tabulate f' (distinct members)).
  split; [done|]. split; [apply dict_keys_tabulate|].
  intros p Hp. apply distinct_elem_of in Hp.
  rewrite dict_get_tabulate by done. f_equal. by apply Hval.
Qed.

(** C1.  The Coexpression Aggregator returns, for every membership list
    and every score source, a map with one key per id of the list whose
    value is the mean of the defined scores between that id and every
    other id of the list, self-pairs and undefined pairs skipped, and is
    ['NA'] when no such score exists; the mean of finite scores is their
    sum divided by their number; and for a list that holds a single
    protein id the value of that id is ['NA']. *)
Theorem calculate_avg_coexpression_mean (coex : Coex) (members : list string) :
  ∃ avg_coex,
    calculate_avg_coexpression coex members = inr avg_coex
    ∧ dict_keys avg_coex = distinct members
    ∧ (∀ p, p ∈ members ->
         dict_get avg_coex p = Some (mean_or_NA (usable_scores coex members p)))
    ∧ (∀ p, p ∈ members -> usable_scores coex members p = [] ->
         dict_get avg_coex p = Some (VStr "NA"))
    ∧ (∀ p qs, p ∈ members -> qs ≠ [] ->
         usable_scores coex members p = Fin <$> qs ->
         dict_get avg_coex p
         = Some (VFloat (Fin (Qc_sum qs / Qc_of_nat (length qs))%Qc)))
    ∧ (∀ p, p ∈ members -> (∀ q, q ∈ members -> q = p) ->
         dict_get avg_coex p = Some (VStr "NA")).
Proof.
  destruct (calculate_avg_coexpression_run coex members)
    as (avg_coex & Hrun & Hkeys & Hget).
  exists avg_coex. split; [done|]. split; [done|]. split; [done|].
  split; [|split].
  - intros p Hp Hnone. rewrite Hget by done. by rewrite Hnone.
  - intros p qs Hp Hne Hqs. rewrite Hget by done. rewrite Hqs.
    unfold mean_or_NA. destruct (Fin <$> qs) as [|x xs] eqn:E.
    + by destruct qs.
    + rewrite <- E. by rewrite np_mean_Fin.
  - intros p Hp Hall. rewrite Hget by done. unfold usable_scores.
    replace (filter (fun q => q ≠ p) (distinct members)) with (@nil string); [done|].
    symmetry. apply filter_none. intros q Hq Hne.
    apply Hne, Hall. by apply distinct_elem_of.
Qed.

(** ** The stable sort and the Ambiguity Resolver *)

Lemma key_le_spec a b :
  key_le a b = true ↔ (a.1 < b.1 ∨ (a.1 = b.1 ∧ a.2 ≤ b.2))%nat.
Proof.
  unfold key_le. rewrite orb_true_iff, andb_true_iff.
  rewrite Nat.ltb_lt, Nat.eqb_eq, Nat.leb_le. done.
Qed.

Lemma key_le_false a b :
  key_le a b = false ↔ (b.1 < a.1 ∨ (a.1 = b.1 ∧ b.2 < a.2))%nat.
Proof.
  rewrite <- not_true_iff_false, key_le_spec. lia.
Qed.

Lemma key_le_refl a : key_le a a = true.
Proof. apply key_le_spec. lia. Qed.

Lemma key_le_trans a b c :
  key_le a b = true -> key_le b c = true -> key_le a c = true.
Proof. rewrite !key_le_spec. lia. Qed.

Lemma key_le_total a b : key_le a b = false -> key_le b a = true.
Proof. rewrite key_le_false, key_le_spec. lia. Qed.

Section Sorting.

Context {A : Type} (key : A -> nat * nat).







Lemma insert_by_head x l :
  head (insert_by key x l)
  = Some (match head l with
          | Some y => if key_le (key x) (key y) then x else y
          | None => x
          end).
Proof.
  destruct l as [|y l]; simpl; [done|]. by destruct (key_le (key x) (key y)).
Qed.

(** The head of the sorted list is the first element with the least
    key. *)
Lemma sort_by_head l :
  l ≠ [] -> ∃ b, head (sort_by key l) = Some b ∧ first_least key b l.
Proof.
  induction l as [|x l IH]; intros Hne; [done|]. simpl.
  rewrite insert_by_head.
  destruct l as [|x' l'].
  - exists x. split; [done|]. exists [], []. by repeat split.
  - destruct IH as (b & Hhead & l1 & l2 & Hl & Hbefore & Hafter); [done|].
    rewrite Hhead.
    assert (Hall : ∀ c, c ∈ x' :: l' -> key_le (key b) (key c) = true).
    { intros c. rewrite Hl, elem_of_app, elem_of_cons.
      intros [Hc|[->|Hc]].
      - rewrite Forall_forall in Hbefore. by apply key_le_total, Hbefore.
      - apply key_le_refl.
      - rewrite Forall_forall in Hafter. by apply Hafter. }
    destruct (key_le (key x) (key b)) eqn:E.
    + exists x. split; [done|]. exists [], (x' :: l').
      split; [done|]. split; [constructor|].
      apply Forall_forall. intros c Hc. eapply key_le_trans; [exact E|by apply Hall].
    + exists b. split; [done|]. exists (x :: l1), l2.
      split; [by rewrite Hl|]. split; [by constructor|done].
Qed.

Lemma first_least_min b l c :
  first_least key b l -> c ∈ l -> key_le (key b) (key c) = true.
Proof.
  intros (l1 & l2 & -> & Hbefore & Hafter).
  rewrite elem_of_app, elem_of_cons. intros [Hc|[->|Hc]].
  - rewrite Forall_forall in Hbefore. by apply key_le_total, Hbefore.
  - apply key_le_refl.
  - rewrite Forall_forall in Hafter. by apply Hafter.
Qed.

Lemma first_least_elem_of b l : first_least key b l -> b ∈ l.
Proof. intros (l1 & l2 & -> & _). set_solver. Qed.


End Sorting.

Lemma Forall2_Permutation_l {A B} (R : A -> B -> Prop) l l' k :
  l ≡ₚ l' -> Forall2 R l k -> ∃ k', Forall2 R l' k' ∧ k ≡ₚ k'.
Proof.
  intros Hp. revert k. induction Hp as [|x l l' Hp IH|x y l|l l' l'' Hp1 IH1 Hp2 IH2];
    intros k HF.
  - inversion HF; subst. by exists [].
  - inversion HF as [|? c ? k0 Hx HF']; subst.
    destruct (IH _ HF') as (k' & HF'' & Hk). exists (c :: k').
    split; [by constructor|]. by constructor.
  - inversion HF as [|? c ? k0 Hx HF']; subst.
    inversion HF' as [|? c' ? k1 Hy HF'']; subst.
    exists (c' :: c :: k1). split; [by repeat constructor|]. apply Permutation_swap.
  - destruct (IH1 _ HF) as (k' & HF' & Hk).
    destruct (IH2 _ HF') as (k'' & HF'' & Hk').
    exists k''. split; [done|]. by etrans.
Qed.

Section Resolver.

Variable float_str : float -> string.
Variables (species : string) (decay_defs : gmap string string) (struc : string).
Variables (comp : Complex) (avg_coex : dict pyval).

Lemma collect_candidates acc subunits cands :
  candidates_of species decay_defs struc comp avg_coex subunits cands ->
  foldM (fun acc sub =>
           let* c := candidate species decay_defs struc comp avg_coex sub in
           ret (acc ++ [c])) acc subunits
  = inr (acc ++ cands).
Proof.
  intros HF. revert acc. induction HF as [|sub c subs cs Hc HF IH]; intros acc; simpl.
  - by rewrite app_nil_r.
  - rewrite Hc. simpl. rewrite IH. by rewrite <- app_assoc.
Qed.

Lemma get_best_head subunits cands best :
  candidates_of species decay_defs struc comp avg_coex subunits cands ->
  head (sort_by sort_key cands) = Some best ->
  get_best_from_multiple_subs float_str species decay_defs struc comp avg_coex
    subunits
  = inr (py_str float_str <$> fields best).
Proof.
  intros HF Hhead. unfold get_best_from_multiple_subs.
  rewrite (collect_candidates [] subunits cands HF). simpl.
  unfold getitem. rewrite <- head_lookup, Hhead. done.
Qed.


End Resolver.

(** ** The Significance Tester *)

Lemma shuffle_step_Permutation {A} (st : rng * list A) i :
  (shuffle_step st i).2 ≡ₚ st.2.
Proof.
  unfold shuffle_step. destruct (randbelow (S i) st.1) as [j g'].
  destruct (st.2 !! i) as [xi|] eqn:Hi, (st.2 !! j) as [xj|] eqn:Hj; simpl;
    try done.
  by apply Permutation_insert_swap.
Qed.

(** [random.shuffle] rearranges the list and nothing else. *)
Lemma random_shuffle_Permutation {A} g (x : list A) :
  (random_shuffle g x).2 ≡ₚ x.
Proof.
  unfold random_shuffle. generalize (rev (seq 1 (length x - 1))). intros idxs.
  change x with (g, x).2 at 2. generalize (g, x). clear g x.
  induction idxs as [|i idxs IH]; intros st; simpl; [done|].
  by rewrite IH, shuffle_step_Permutation.
Qed.

Lemma random_shuffle_length {A} g (x : list A) :
  length (random_shuffle g x).2 = length x.
Proof. apply Permutation_length, random_shuffle_Permutation. Qed.

Lemma labels_collect (comp : list (list string)) acc :
  pairs comp ->
  foldM (fun acc subunit => let* d := getitem subunit 1 in ret (acc ++ [d]))
        acc comp
  = inr (acc ++ (row_label <$> comp)).
Proof.
  intros Hp. revert acc. induction Hp as [|r comp Hr Hp IH]; intros acc; simpl.
  - by rewrite app_nil_r.
  - destruct r as [|v [|l [|]]]; try done. simpl.
    rewrite IH. by rewrite <- app_assoc.
Qed.

Lemma relabel_loop (pre todo : list (list string)) (ld lt : list string) :
  pairs todo -> length ld = length pre -> length lt = length todo ->
  foldM (fun c i =>
           let* ci := getitem c i in
           let* v := getitem ci 0 in
           let* d := getitem (ld ++ lt) i in
           ret (<[i := [v; d]]> c))
        (pre ++ todo) (seq (length pre) (length todo))
  = inr (pre ++ zip_with (fun r l => [row_value r; l]) todo lt).
Proof.
  intros Hp. revert pre ld lt.
  induction Hp as [|r todo Hr Hp IH]; intros pre ld lt Hld Hlt; simpl.
  - done.
  - destruct lt as [|d lt]; [done|]. simpl in Hlt.
    unfold getitem at 1. rewrite lookup_app_r by lia.
    rewrite Nat.sub_diag. simpl.
    destruct r as [|v [|l [|]]]; try done. simpl.
    unfold getitem at 1. rewrite lookup_app_r by lia.
    rewrite Hld, Nat.sub_diag. simpl.
    rewrite insert_app_r_alt by lia. rewrite Nat.sub_diag. simpl.
    specialize (IH (pre ++ [[v; d]]) (ld ++ [d]) lt).
    rewrite !length_app in IH. simpl in IH. rewrite !Nat.add_1_r in IH.
    rewrite <- !app_assoc in IH. simpl in IH.
    rewrite IH by lia. done.
Qed.

(** The shuffle block relabels the complex. *)
Lemma shuffle_labels_relabelled g comp :
  pairs comp -> shuffle_labels g comp = inr (relabelled g comp).
Proof.
  intros Hp. unfold shuffle_labels, relabelled.
  rewrite labels_collect by done. simpl.
  destruct (random_shuffle g (row_label <$> comp)) as [g' labels] eqn:E.
  assert (Hlen : length labels = length comp).
  { pose proof (random_shuffle_length g (row_label <$> comp)) as H.
    rewrite E, length_fmap in H. done. }
  rewrite Hlen.
  pose proof (relabel_loop [] comp [] labels Hp eq_refl Hlen) as Hloop.
  simpl in Hloop. rewrite Hloop. done.
Qed.

Lemma relabelled_length g comp :
  pairs comp -> length (relabelled g comp).2 = length comp.
Proof.
  intros Hp. unfold relabelled. simpl. rewrite length_zip_with.
  rewrite random_shuffle_length, length_fmap. lia.
Qed.

Lemma relabelled_pairs g comp : pairs (relabelled g comp).2.
Proof.
  unfold relabelled, pairs. simpl.
  generalize (random_shuffle g (row_label <$> comp)).2. intros labels.
  revert labels. induction comp as [|r comp IH]; intros [|l labels]; simpl;
    try constructor; [done|]. apply IH.
Qed.

Section Tester.

Variable py_float : string -> option float.

Lemma row_values_cons lbl v l comp :
  row_values py_float lbl ([v; l] :: comp)
  = (if bool_decide (v ≠ "NA" ∧ l = lbl) then option_list (py_float v) else [])
    ++ row_values py_float lbl comp.
Proof.
  unfold row_values. simpl. unfold row_value, row_label. simpl.
  case_bool_decide; [|done]. by destruct (py_float v).
Qed.

Lemma partition_rows_from comp n e :
  pairs comp -> numeric py_float comp ->
  foldM (partition_step py_float) (n, e) comp
  = inr (n ++ row_values py_float "NED" comp, e ++ row_values py_float "ED" comp).
Proof.
  intros Hp. revert n e. induction Hp as [|r comp Hr Hp IH]; intros n e Hnum.
  - simpl. by rewrite !app_nil_r.
  - apply Forall_cons in Hnum as [Hv Hnum].
    destruct r as [|v [|l [|]]]; try done.
    rewrite !row_values_cons.
    change (foldM (partition_step py_float) (n, e) ([v; l] :: comp))
      with (let* acc := partition_step py_float (n, e) [v; l] in
            foldM (partition_step py_float) acc comp).
    unfold partition_step. cbn [getitem lookup list_lookup bind ret fst snd].
    change (row_value [v; l]) with v in Hv.
    destruct (decide (v = "NA")) as [Hna|Hna].
    + rewrite (bool_decide_eq_true_2 (v = "NA")) by done.
      rewrite !(bool_decide_eq_false_2 (v ≠ "NA" ∧ _)) by naive_solver.
      cbn [bind ret app]. by apply IH.
    + rewrite (bool_decide_eq_false_2 (v = "NA")) by done.
      destruct (Hv Hna) as [x Hx]. unfold float_of. rewrite Hx.
      cbn [bind ret option_list].
      destruct (decide (l = "NED")) as [Hned|Hned].
      * rewrite (bool_decide_eq_true_2 (l = "NED")) by done.
        rewrite (bool_decide_eq_true_2 (v ≠ "NA" ∧ l = "NED")) by done.
        rewrite (bool_decide_eq_false_2 (v ≠ "NA" ∧ l = "ED"))
          by (subst l; naive_solver).
        cbn [bind ret fst snd]. rewrite IH by done.
        by rewrite <- !app_assoc.
      * rewrite (bool_decide_eq_false_2 (l = "NED")) by done.
        rewrite (bool_decide_eq_false_2 (v ≠ "NA" ∧ l = "NED")) by naive_solver.
        destruct (decide (l = "ED")) as [Hed|Hed].
        -- rewrite (bool_decide_eq_true_2 (l = "ED")) by done.
           rewrite (bool_decide_eq_true_2 (v ≠ "NA" ∧ l = "ED")) by done.
           cbn [bind ret fst snd]. rewrite IH by done.
           by rewrite <- !app_assoc.
        -- rewrite (bool_decide_eq_false_2 (l = "ED")) by done.
           rewrite (bool_decide_eq_false_2 (v ≠ "NA" ∧ l = "ED")) by naive_solver.
           cbn [bind ret app]. by apply IH.
Qed.

Lemma partition_rows_values comp :
  pairs comp -> numeric py_float comp ->
  partition_rows py_float comp
  = inr (row_values py_float "NED" comp, row_values py_float "ED" comp).
Proof. intros. unfold partition_rows. by rewrite partition_rows_from. Qed.

Lemma row_values_all_NA lbl comp :
  Forall (fun r => row_value r = "NA") comp -> row_values py_float lbl comp = [].
Proof.
  induction 1 as [|r comp Hr Hall IH]; [done|].
  unfold row_values. simpl. rewrite bool_decide_eq_false_2 by naive_solver.
  apply IH.
Qed.

Lemma all_NA_numeric comp :
  Forall (fun r => row_value r = "NA") comp -> numeric py_float comp.
Proof.
  unfold numeric. intros Hna. eapply Forall_impl; [exact Hna|].
  intros r Hr Hne. done.
Qed.

Lemma zip_relabel_values (comp : list (list string)) labels :
  Forall2 (fun r' r => row_value r' = row_value r)
    (zip_with (fun r l => [row_value r; l]) comp labels)
    (take (length labels) comp).
Proof.
  revert labels. induction comp as [|r comp IH]; intros [|l labels]; simpl;
    try constructor; [done|]. apply IH.
Qed.

Lemma relabelled_row_values g comp :
  Forall2 (fun r' r => row_value r' = row_value r) (relabelled g comp).2 comp.
Proof.
  unfold relabelled. simpl.
  pose proof (zip_relabel_values comp (random_shuffle g (row_label <$> comp)).2) as H.
  rewrite random_shuffle_length, length_fmap, firstn_all in H. done.
Qed.

Lemma relabelled_numeric g comp :
  numeric py_float comp -> numeric py_float (relabelled g comp).2.
Proof.
  unfold numeric. intros Hnum.
  pose proof (relabelled_row_values g comp) as HF.
  induction HF as [|r' r l' l Hr HF IH]; [constructor|].
  apply Forall_cons in Hnum as [Hv Hnum].
  constructor; [by rewrite Hr | by apply IH].
Qed.

Lemma relabelled_all_NA g comp :
  Forall (fun r => row_value r = "NA") comp ->
  Forall (fun r => row_value r = "NA") (relabelled g comp).2.
Proof.
  intros Hna. pose proof (relabelled_row_values g comp) as HF.
  induction HF as [|r' r l' l Hr HF IH]; [constructor|].
  apply Forall_cons in Hna as [Hv Hna].
  constructor; [by rewrite Hr | by apply IH].
Qed.

Lemma null_mode_pairs rand g comp :
  pairs comp -> pairs (null_mode rand g comp).2.
Proof. destruct rand; simpl; [intros _; apply relabelled_pairs | done]. Qed.

Lemma null_mode_length rand g comp :
  pairs comp -> length (null_mode rand g comp).2 = length comp.
Proof. destruct rand; simpl; [apply relabelled_length | done]. Qed.

Lemma null_mode_numeric rand g comp :
  numeric py_float comp -> numeric py_float (null_mode rand g comp).2.
Proof. destruct rand; simpl; [apply relabelled_numeric | done]. Qed.

(** One iteration of the loop over the complexes. *)
Lemma analyse_struc_step rand st struc comp :
  dict_get (t_strucs st) struc = Some comp ->
  pairs comp ->
  ((2 < length comp)%nat -> numeric py_float comp) ->
  let comp' := (null_mode rand (t_rng st) comp).2 in
  analyse_struc py_float rand st struc
  = inr {| t_strucs := (if rand then dict_set (t_strucs st) struc comp'
                        else t_strucs st);
           t_success := (if succeeds py_float comp'
                         then S (t_success st) else t_success st);
           t_trials := (if contributes py_float comp'
                        then S (t_trials st) else t_trials st);
           t_plot := (if contributes py_float comp'
                      then t_plot st ++ [struc] else t_plot st);
           t_rng := (null_mode rand (t_rng st) comp).1 |}.
Proof.
  intros Hget Hp Hnum comp'.
  assert (Hlen : length comp' = length comp) by by apply null_mode_length.
  assert (Hp' : pairs comp') by by apply null_mode_pairs.
  unfold analyse_struc, dict_getitem. rewrite Hget. simpl.
  assert (Hgc : (if rand then shuffle_labels (t_rng st) comp
                 else ret (t_rng st, comp))
                = inr (null_mode rand (t_rng st) comp)).
  { destruct rand; simpl; [by apply shuffle_labels_relabelled | done]. }
  rewrite Hgc. simpl. fold comp'.
  unfold succeeds, contributes.
  case_bool_decide as Hle.
  - rewrite (bool_decide_eq_false_2 (2 < length comp')%nat) by lia. done.
  - rewrite (bool_decide_eq_true_2 (2 < length comp')%nat) by lia.
    rewrite partition_rows_values;
      [|done|apply null_mode_numeric, Hnum; lia].
    simpl.
    replace (bool_decide (length (row_values py_float "NED" comp') = 0%nat))
      with (bool_decide (row_values py_float "NED" comp' = []))
      by (by destruct (row_values py_float "NED" comp')).
    replace (bool_decide (length (row_values py_float "ED" comp') = 0%nat))
      with (bool_decide (row_values py_float "ED" comp' = []))
      by (by destruct (row_values py_float "ED" comp')).
    destruct (bool_decide (row_values py_float "NED" comp' = [])); [done|].
    destruct (bool_decide (row_values py_float "ED" comp' = [])); [done|].
    simpl.
    destruct (float_list_eqb _ _); [done|]. simpl.
    by destruct (float_gt _ _).
Qed.

End Tester.







Section TesterLoop.

Variable py_float : string -> option float.







(** C5.  A complex with two rows or fewer adds no trial and no success,
    whatever its rows hold; in null mode the same is true when its rows
    are (value, label) pairs.  A complex of (value, label) pairs whose
    values are all ['NA'] adds no trial and no success in either mode. *)
Theorem analyse_struc_excluded (st : tester) (struc : string)
    (comp : list (list string)) :
  dict_get (t_strucs st) struc = Some comp ->
  ((length comp <= 2)%nat -> analyse_struc py_float false st struc = inr st)
  ∧ (∀ rand, pairs comp ->
       (length comp <= 2)%nat ∨ Forall (fun r => row_value r = "NA") comp ->
       ∃ st', analyse_struc py_float rand st struc = inr st'
         ∧ t_trials st' = t_trials st
         ∧ t_success st' = t_success st
         ∧ t_plot st' = t_plot st).
Proof.
  intros Hget. split.
  - intros Hlen. unfold analyse_struc, dict_getitem. rewrite Hget. simpl.
    rewrite bool_decide_eq_true_2 by done. by destruct st.
  - intros rand Hp Hcase.
    assert (Hnum : (2 < length comp)%nat -> numeric py_float comp).
    { intros Hlen. destruct Hcase as [?|Hna]; [lia|]. by apply all_NA_numeric. }
    rewrite (analyse_struc_step py_float rand st struc comp) by done.
    eexists. split; [done|]. simpl.
    assert (Hc : contributes py_float (null_mode rand (t_rng st) comp).2 = false).
    { unfold contributes. destruct Hcase as [Hlen|Hna].
      - rewrite null_mode_length by done.
        by rewrite (bool_decide_eq_false_2 (2 < length comp)%nat) by lia.
      - rewrite (row_values_all_NA py_float "NED");
          [by rewrite andb_false_r|].
        destruct rand; simpl; [by apply relabelled_all_NA | done]. }
    unfold succeeds. rewrite Hc. done.
Qed.

End TesterLoop.

(** ** Identifier resolution and the records of the Table Builder *)

Lemma list_index_find sub (slot : list string) :
  sub ∈ slot -> list_find (fun x => x = sub) slot = Some (list_index sub slot, sub).
Proof.
  induction slot as [|y slot IH]; intros Hin; [by apply elem_of_nil in Hin|].
  cbn [list_find list_index]. destruct (decide (y = sub)) as [->|Hne].
  - by rewrite bool_decide_eq_true_2.
  - rewrite bool_decide_eq_false_2 by done.
    apply elem_of_cons in Hin as [->|Hin]; [done|].
    by rewrite IH.
Qed.

(** The loop of [match_entrez_to_uniprot], started after the slots
    [pre], finds the first later slot that holds the id. *)
Lemma match_from_find comp sub pre rest :
  entrez comp = pre ++ rest ->
  match_from comp sub (seq (length pre) (length rest))
  = match list_find (fun slot => sub ∈ slot) rest with
    | None => inr VNone
    | Some (i, slot) =>
        let* uslot := getitem (uniprot comp) (length pre + i) in
        let* u := getitem uslot (list_index sub slot) in
        ret (VStr u)
    end.
Proof.
  revert pre. induction rest as [|slot rest IH]; intros pre Hent; [done|].
  cbn [length seq match_from list_find].
  unfold getitem at 1. rewrite Hent, lookup_app_r by lia.
  rewrite Nat.sub_diag. cbn [lookup list_lookup bind ret].
  destruct (decide (sub ∈ slot)) as [Hin|Hnin].
  - rewrite bool_decide_eq_true_2 by done. by rewrite Nat.add_0_r.
  - rewrite bool_decide_eq_false_2 by done.
    specialize (IH (pre ++ [slot])). rewrite length_app in IH. simpl in IH.
    rewrite Nat.add_1_r in IH. rewrite IH by (by rewrite Hent, <- app_assoc).
    destruct (list_find (fun slot => sub ∈ slot) rest) as [[i s]|]; simpl; [|done].
    by rewrite Nat.add_succ_r.
Qed.

(** [match_entrez_to_uniprot] returns the aligned secondary id, raises
    [IndexError] when the parallel lists have none, and returns [None]
    only for an id that is in no slot. *)
Lemma match_entrez_to_uniprot_resolve comp sub :
  match_entrez_to_uniprot comp sub
  = match list_find (fun slot => sub ∈ slot) (entrez comp) with
    | None => inr VNone
    | Some _ =>
        match resolve comp sub with
        | Some u => inr (VStr u)
        | None => inl IndexError
        end
    end.
Proof.
  unfold match_entrez_to_uniprot, resolve.
  pose proof (match_from_find comp sub [] (entrez comp) eq_refl) as Hm.
  simpl in Hm. rewrite Hm. clear Hm.
  destruct (list_find _ (entrez comp)) as [[i slot]|] eqn:Hfind; [|done].
  apply list_find_Some in Hfind as (Hi & Hin & _).
  rewrite (list_index_find sub slot Hin). simpl. unfold getitem.
  destruct (uniprot comp !! i) as [uslot|]; simpl; [|done].
  by destruct (uslot !! list_index sub slot).
Qed.

Lemma elem_of_concat {A} (x : A) (ls : list (list A)) :
  x ∈ concat ls ↔ ∃ l, x ∈ l ∧ l ∈ ls.
Proof.
  induction ls as [|l ls IH]; simpl.
  - split; [by intros ?%elem_of_nil|]. by intros (l & _ & ?%elem_of_nil).
  - rewrite elem_of_app, IH. setoid_rewrite elem_of_cons. naive_solver.
Qed.

Lemma member_of_find comp sub :
  member_of comp sub ->
  is_Some (list_find (fun slot => sub ∈ slot) (entrez comp)).
Proof.
  unfold member_of. intros Hin. apply elem_of_concat in Hin as (slot & Hs & Hslot).
  destruct (list_find _ (entrez comp)) as [p|] eqn:E; [by eexists|].
  apply list_find_None in E. rewrite Forall_forall in E. by destruct (E slot Hslot).
Qed.

Lemma match_entrez_to_uniprot_member comp sub :
  member_of comp sub ->
  match_entrez_to_uniprot comp sub
  = match resolve comp sub with
    | Some u => inr (VStr u)
    | None => inl IndexError
    end.
Proof.
  intros Hm. rewrite match_entrez_to_uniprot_resolve.
  by destruct (member_of_find comp sub Hm) as [p ->].
Qed.





Section Builder.

Variable float_str : float -> string.
Variable LoadCorum : string -> string -> result Corum.
Variable Coexpression : result Coex.

Variables (species : string) (decay_defs : gmap string string) (struc : string).
Variables (comp : Complex) (coex : Coex) (avg_coex : dict pyval).

Hypothesis avg_coex_computed :
  calculate_avg_coexpression coex (concat (entrez comp)) = inr avg_coex.

Lemma avg_coex_member sub :
  member_of comp sub -> dict_get avg_coex sub = Some (mean_or_NA (usable_scores coex (concat (entrez comp)) sub)).
Proof.
  intros Hm.
  destruct (calculate_avg_coexpression_run coex (concat (entrez comp)))
    as (d & Hrun & _ & Hget).
  rewrite avg_coex_computed in Hrun. simplify_eq. by apply Hget.
Qed.

Lemma candidate_member sub :
  member_of comp sub ->
  candidate species decay_defs struc comp avg_coex sub
  = match resolve comp sub with
    | Some u => inr (record_of species decay_defs struc sub u
                       (mean_or_NA (usable_scores coex (concat (entrez comp)) sub)))
    | None => inl IndexError
    end.
Proof.
  intros Hm. unfold candidate, dict_getitem.
  rewrite match_entrez_to_uniprot_member, avg_coex_member by done.
  by destruct (resolve comp sub).
Qed.

Lemma collect_outcome acc subunits :
  (∀ sub, sub ∈ subunits -> member_of comp sub) ->
  match foldM (fun acc sub =>
                 let* c := candidate species decay_defs struc comp avg_coex sub in
                 ret (acc ++ [c])) acc subunits with
  | inr l =>
      ∃ cands, l = acc ++ cands
        ∧ Forall2 (fun sub c =>
                     ∃ u, resolve comp sub = Some u
                       ∧ c = record_of species decay_defs struc sub u
                               (mean_or_NA (usable_scores coex (concat (entrez comp)) sub)))
                  subunits cands
  | inl e => e = IndexError ∧ ∃ sub, sub ∈ subunits ∧ resolve comp sub = None
  end.
Proof.
  revert acc. induction subunits as [|sub subunits IH]; intros acc Hm; simpl.
  - exists []. by rewrite app_nil_r.
  - rewrite candidate_member by (apply Hm; left).
    destruct (resolve comp sub) as [u|] eqn:Hres; simpl.
    + specialize (IH (acc ++ [record_of species decay_defs struc sub u
                                 (mean_or_NA (usable_scores coex (concat (entrez comp)) sub))])).
      destruct (foldM _ _ subunits) as [e|l].
      * destruct IH as (-> & sub' & Hin & Hnone); [intros; apply Hm; by right|].
        split; [done|]. exists sub'. split; [by right|done].
      * destruct IH as (cands & -> & HF); [intros; apply Hm; by right|].
        eexists (_ :: cands). rewrite <- app_assoc. split; [done|].
        constructor; [eauto|done].
    + split; [done|]. exists sub. split; [left|done].
Qed.

(** The outcome of the loop body on a slot of the complex: an
    [IndexError] or the stringified record of one of the candidate ids
    with its aligned secondary id. *)
Lemma slot_info_outcome subunit :
  subunit ∈ entrez comp ->
  match slot_info float_str species decay_defs struc comp avg_coex subunit with
  | inl e => e = IndexError
  | inr row =>
      ∃ sub u, sub ∈ subunit ∧ resolve comp sub = Some u
        ∧ row = py_str float_str
                <$> fields (record_of species decay_defs struc sub u
                              (mean_or_NA (usable_scores coex (concat (entrez comp)) sub)))
  end.
Proof.
  intros Hslot.
  assert (Hm : ∀ sub, sub ∈ subunit -> member_of comp sub).
  { intros sub Hin. apply elem_of_concat. eauto. }
  unfold slot_info. case_bool_decide as Hlen.
  - destruct subunit as [|sub [|]]; try done. simpl.
    rewrite candidate_member by (apply Hm; left).
    destruct (resolve comp sub) as [u|] eqn:Hres; simpl; [|done].
    exists sub, u. split; [left|done].
  - unfold get_best_from_multiple_subs.
    pose proof (collect_outcome [] subunit Hm) as Hcol.
    destruct (foldM _ [] subunit) as [e|l]; simpl.
    + by destruct Hcol.
    + destruct Hcol as (cands & -> & HF). simpl.
      destruct cands as [|c0 cands].
      * by rewrite (Forall2_nil_inv_r _ _ HF).
      * destruct (sort_by_head sort_key (c0 :: cands)) as (best & Hhead & Hfirst);
          [done|].
        unfold getitem. rewrite <- head_lookup, Hhead. simpl.
        apply first_least_elem_of in Hfirst.
        apply list_elem_of_lookup in Hfirst as [i Hi].
        destruct (Forall2_lookup_r _ _ _ _ _ HF Hi) as (sub & Hsub & u & Hres & ->).
        exists sub, u. split; [by eapply list_elem_of_lookup_2|done].
Qed.

Lemma slot_info_unresolved subunit sub :
  subunit ∈ entrez comp -> sub ∈ subunit -> resolve comp sub = None ->
  slot_info float_str species decay_defs struc comp avg_coex subunit
  = inl IndexError.
Proof.
  intros Hslot Hin Hnone.
  assert (Hm : ∀ sub, sub ∈ subunit -> member_of comp sub).
  { intros sub' Hin'. apply elem_of_concat. eauto. }
  unfold slot_info. case_bool_decide as Hlen.
  - destruct subunit as [|sub' [|]]; try done. simpl.
    apply list_elem_of_singleton in Hin as ->.
    rewrite candidate_member by (apply Hm; left). by rewrite Hnone.
  - unfold get_best_from_multiple_subs.
    pose proof (collect_outcome [] subunit Hm) as Hcol.
    destruct (foldM _ [] subunit) as [e|l]; simpl.
    + by destruct Hcol as [-> _].
    + destruct Hcol as (cands & -> & HF).
      apply list_elem_of_lookup in Hin as [i Hi].
      destruct (Forall2_lookup_l _ _ _ _ _ HF Hi) as (c & _ & u & Hres & _).
      congruence.
Qed.

End Builder.

(** ** The Table Builder as a whole *)

Lemma io_bind_fails {A B} (m : io A) (k : A -> io B) :
  (∀ x w, ∃ e, (k x w).1 = inl e) -> ∀ w, ∃ e, (io_bind m k w).1 = inl e.
Proof.
  intros Hk w. unfold io_bind. destruct (m w) as [[e|x] w']; [by exists e|].
  apply Hk.
Qed.

(** A loop one of whose iterations always raises never completes. *)
Lemma for_io_fails {A} (l : list A) (body : A -> io unit) x :
  x ∈ l -> (∀ w, ∃ e, (body x w).1 = inl e) ->
  ∀ w, ∃ e, (for_io l body w).1 = inl e.
Proof.
  intros Hin Hx. induction l as [|y l IH]; intros w; [by apply elem_of_nil in Hin|].
  simpl. unfold io_bind.
  destruct (body y w) as [[e|[]] w'] eqn:Hy; [by exists e|].
  apply elem_of_cons in Hin as [->|Hin].
  - destruct (Hx w) as [e He]. rewrite Hy in He. done.
  - by apply IH.
Qed.

Section TableBuilder.

Variable float_str : float -> string.
Variable LoadCorum : string -> string -> result Corum.
Variable Coexpression : result Coex.

Lemma process_struc_fails species core coex decay_defs struc comp subunit sub :
  complexes core !! struc = Some comp ->
  subunit ∈ entrez comp -> sub ∈ subunit -> resolve comp sub = None ->
  ∀ w, ∃ e, (process_struc float_str species core coex decay_defs struc w).1 = inl e.
Proof.
  intros Hcomp Hslot Hsub Hnone w.
  destruct (calculate_avg_coexpression_run coex (concat (entrez comp)))
    as (avg_coex & Havg & _).
  unfold process_struc, io_bind, lift, Corum_getitem. rewrite Hcomp. simpl.
  rewrite Havg.
  apply (for_io_fails _ _ subunit Hslot). intros w1. unfold io_bind.
  rewrite (slot_info_unresolved float_str species decay_defs struc comp coex
             avg_coex Havg subunit sub) by done.
  by exists IndexError.
Qed.

(** C7.  In the Table Builder a candidate id of a slot of the complex is
    resolved through the parallel lists of the complex or not at all:
    [match_entrez_to_uniprot] returns the aligned secondary id or raises,
    and never returns a placeholder; when some candidate id of some slot
    has no aligned secondary id the slot raises [IndexError] and the run
    of the Table Builder ends with an exception; every record that is
    built carries the aligned secondary id of its primary id.  An id
    absent from the classification lookup has the label ['NA'], and an id
    without a usable score has the coexpression field ['NA']. *)
Theorem process_corum_data_resolution (species : string) (core : Corum)
    (struc : string) (comp : Complex) (subunit : list string) :
  LoadCorum (title species) "core" = inr core ->
  struc ∈ strucs core ->
  complexes core !! struc = Some comp ->
  subunit ∈ entrez comp ->
  (∀ sub, sub ∈ subunit ->
     match_entrez_to_uniprot comp sub
     = match resolve comp sub with
       | Some u => inr (VStr u)
       | None => inl IndexError
       end)
  ∧ (∀ sub, sub ∈ subunit -> resolve comp sub = None ->
       (∀ coex decay_defs avg_coex,
          calculate_avg_coexpression coex (concat (entrez comp)) = inr avg_coex ->
          slot_info float_str species decay_defs struc comp avg_coex subunit
          = inl IndexError)
       ∧ ∀ w, ∃ e, (process_corum_data float_str LoadCorum Coexpression species w).1 = inl e)
  ∧ (∀ coex decay_defs avg_coex row,
       calculate_avg_coexpression coex (concat (entrez comp)) = inr avg_coex ->
       slot_info float_str species decay_defs struc comp avg_coex subunit = inr row ->
       ∃ sub u,
         sub ∈ subunit ∧ resolve comp sub = Some u
         ∧ row = [struc; sub; u;
                  match usable_scores coex (concat (entrez comp)) sub with
                  | [] => "NA"
                  | l => float_str (np_mean l)
                  end;
                  default "NA" (decay_defs !! u); species]).
Proof.
  intros Hload Hstruc Hcomp Hslot. split; [|split].
  - intros sub Hin. apply match_entrez_to_uniprot_member.
    apply elem_of_concat. eauto.
  - intros sub Hin Hnone. split.
    + intros coex decay_defs avg_coex Havg. by eapply slot_info_unresolved.
    + intros w. unfold process_corum_data. unfold io_bind at 1. rewrite Hload.
      apply io_bind_fails. intros coex w1.
      apply io_bind_fails. intros data w2.
      apply io_bind_fails. intros data' w3.
      apply io_bind_fails. intros decay_defs w4.
      apply io_bind_fails. intros [] w5.
      apply io_bind_fails. intros [] w6.
      apply (for_io_fails _ _ struc Hstruc).
      by eapply process_struc_fails.
  - intros coex decay_defs avg_coex row Havg Hrow.
    pose proof (slot_info_outcome float_str species decay_defs struc comp coex
                  avg_coex Havg subunit Hslot) as Hout.
    rewrite Hrow in Hout. destruct Hout as (sub & u & Hin & Hres & ->).
    exists sub, u. split; [done|]. split; [done|].
    simpl. unfold mean_or_NA. by destruct (usable_scores _ _ _).
Qed.


(** C8, as the code has it.  For a species other than ['human'] and
    ['mouse'] the run of the Table Builder ends with an exception, leaves
    every file as it was and opens no file for writing; the complex
    database and the coexpression source are loaded first, and when both
    load the exception is the [UnboundLocalError] of the classification
    table that was never read. *)
Theorem process_corum_data_unsupported (species : string) (w : world) :
  species ≠ "human" -> species ≠ "mouse" ->
  (∃ e, (process_corum_data float_str LoadCorum Coexpression species w).1 = inl e)
  ∧ files (process_corum_data float_str LoadCorum Coexpression species w).2 = files w
  ∧ (∃ evs, log (process_corum_data float_str LoadCorum Coexpression species w).2 = log w ++ evs
       ∧ Forall (fun e => is_open_write e = false) evs)
  ∧ (∀ core coex,
       LoadCorum (title species) "core" = inr core ->
       Coexpression = inr coex ->
       process_corum_data float_str LoadCorum Coexpression species w
       = (inl UnboundLocalError,
          {| files := files w;
             log := log w ++ [EvLoadCorum (title species) "core";
                              EvCoexpression] |})).
Proof.
  intros Hh Hm. unfold process_corum_data, io_bind, emit.
  destruct (LoadCorum (title species) "core") as [e|core]; simpl.
  { split; [by exists e|]. split; [done|]. split; [|done].
    eexists [_]. split; [done|]. by repeat constructor. }
  destruct Coexpression as [e|coex]; simpl.
  { split; [by exists e|]. split; [done|]. split; [|done].
    eexists [_; _]. rewrite <- app_assoc. split; [done|]. by repeat constructor. }
  rewrite !bool_decide_eq_false_2 by done. simpl.
  split; [by exists UnboundLocalError|]. split; [done|]. split.
  - eexists [_; _]. rewrite <- app_assoc. split; [done|]. by repeat constructor.
  - intros core' coex' _ _. by rewrite <- app_assoc.
Qed.

End TableBuilder.

(** ** The line filter of the Significance Tester *)

Lemma read_rows_nil text : read_rows text = [].
Proof.
  unfold read_rows. rewrite filter_none; [done|]. intros line _. done.
Qed.

Lemma binom_test_0_0 : binom_test 0 0 = inr (Fin 1%Qc).
Proof.
  unfold binom_test. simpl. unfold ret. do 2 f_equal.
  all: apply Qc_is_canon; by vm_compute.
Qed.

(** C10.  Whatever the file holds, the comprehension guarded by the
    empty string keeps no line: the table of rows and the grouped table
    are empty, and the report is 0 successes in 0 trials (with p-value
    one). *)
Theorem analyse_corum_data_no_rows (py_float : string -> option float)
    (rand : bool) (g : rng) (filename : string) (w : world) (text : string) :
  files w !! filename = Some text ->
  read_rows text = []
  ∧ group_rows (read_rows text) = inr []
  ∧ (analyse_corum_data py_float rand g filename w).1 = inr (0%nat, 0%nat, Fin 1%Qc).
Proof.
  intros Hfile. split; [apply read_rows_nil|]. split.
  - by rewrite read_rows_nil.
  - unfold analyse_corum_data, io_bind, open_read, lift. rewrite Hfile.
    unfold ret at 1. cbn [fst]. rewrite read_rows_nil. cbn [group_rows foldM bind ret].
    unfold analyse_strucs. cbn [dict_keys fmap list_fmap foldM bind ret].
    cbn [t_success t_trials]. by rewrite binom_test_0_0.
Qed.

(** C6, at a table of three records.  The table written for the sample
    complex holds the rows of [demo_pairs]; splitting its lines and
    grouping them gives these rows back, after the group of the header
    line, but [read_rows] keeps none of the lines, and the grouping that
    [analyse_corum_data] builds is empty. *)
Theorem roundtrip_rows_lost :
  let written :=
    (process_corum_data demo_str demo_LoadCorum demo_Coexpression "human"
       demo_world).2 in
  files written !! ofname "human" = Some demo_table
  ∧ group_rows ((fun line => split_on (Ascii.ascii_of_nat 9) (strip line))
                  <$> file_lines demo_table)
    = inr (("comp", [["uniprot"; "avg.coex"]]) :: demo_pairs)
  ∧ read_rows demo_table = []
  ∧ group_rows (read_rows demo_table) = inr []
  ∧ group_rows (read_rows demo_table) ≠ inr demo_pairs.
Proof.
  split; [by vm_compute|]. split; [by vm_compute|].
  split; [apply read_rows_nil|]. rewrite read_rows_nil. by split.
Qed.

(** * Instances on the sample data *)

(** The aggregator on a list with a repeated id. *)
Lemma calculate_avg_coexpression_mean_witness :
  ∃ avg_coex,
    calculate_avg_coexpression demo_coex ["1"; "2"; "3"; "2"; "4"] = inr avg_coex
    ∧ dict_keys avg_coex = ["1"; "2"; "3"; "4"]
    ∧ dict_get avg_coex "1" = Some (VFloat (np_mean [Fin 1%Qc; Fin two]))
    ∧ dict_get avg_coex "4" = Some (VStr "NA").
Proof.
  destruct (calculate_avg_coexpression_mean demo_coex ["1"; "2"; "3"; "2"; "4"])
    as (avg_coex & Hrun & Hkeys & Hget & _).
  exists avg_coex. split; [exact Hrun|]. split; [exact Hkeys|]. split.
  - apply (Hget "1"). repeat constructor.
  - apply (Hget "4"). repeat constructor.
Defined.





(** A complex of two rows, and a complex whose values are all ['NA'] in
    null mode. *)
Lemma analyse_struc_excluded_witness :
  analyse_struc demo_float false
    (demo_tester [("d", [["2.0"; "NED"]; ["1.0"; "ED"]])]) "d"
  = inr (demo_tester [("d", [["2.0"; "NED"]; ["1.0"; "ED"]])])
  ∧ ∃ st',
      analyse_struc demo_float true
        (demo_tester [("n", [["NA"; "NED"]; ["NA"; "ED"]; ["NA"; "ED"]])]) "n"
      = inr st'
      ∧ t_trials st' = 0%nat.
Proof.
  split.
  - apply (analyse_struc_excluded demo_float
             (demo_tester [("d", [["2.0"; "NED"]; ["1.0"; "ED"]])]) "d"
             [["2.0"; "NED"]; ["1.0"; "ED"]]); [reflexivity | simpl; lia].
  - destruct (analyse_struc_excluded demo_float
                (demo_tester [("n", [["NA"; "NED"]; ["NA"; "ED"]; ["NA"; "ED"]])])
                "n" [["NA"; "NED"]; ["NA"; "ED"]; ["NA"; "ED"]] eq_refl)
      as [_ Hany].
    destruct (Hany true) as (st' & Hrun & Ht & _).
    + unfold pairs. by_evaluation.
    + right. by_evaluation.
    + exists st'. split; [exact Hrun | exact Ht].
Defined.

(** A complex whose last slot has no secondary id stops the run. *)
Lemma process_corum_data_resolution_witness :
  (∀ w, ∃ e, (process_corum_data demo_str broken_LoadCorum demo_Coexpression
                "human" w).1 = inl e)
  ∧ match_entrez_to_uniprot broken_comp "4" = inl IndexError
  ∧ match_entrez_to_uniprot broken_comp "3" = inr (VStr "P3").
Proof.
  destruct (process_corum_data_resolution demo_str broken_LoadCorum
              demo_Coexpression "human" broken_core "c1" broken_comp ["4"])
    as (Hmatch & Hfail & _).
  - reflexivity.
  - by_evaluation.
  - by vm_compute.
  - by_evaluation.
  - split; [|split].
    + apply (Hfail "4"); [by_evaluation | reflexivity].
    + rewrite (Hmatch "4") by by_evaluation. reflexivity.
    + reflexivity.
Defined.

(** The claim of C8 as stated fails on the species ['rat']: when the run
    stops, the complex database and the coexpression source have been
    loaded. *)
Lemma unsupported_species_loads_first :
  "rat" ≠ "human" ∧ "rat" ≠ "mouse"
  ∧ ¬ (log (process_corum_data demo_str demo_LoadCorum demo_Coexpression
              "rat" demo_world).2 = log demo_world)
  ∧ process_corum_data demo_str demo_LoadCorum demo_Coexpression "rat" demo_world
    = (inl UnboundLocalError,
       {| files := files demo_world;
          log := [EvLoadCorum "Rat" "core"; EvCoexpression] |}).
Proof.
  split; [done|]. split; [done|]. split; [|reflexivity].
  vm_compute. discriminate.
Qed.

(** The species ['rat']. *)
Lemma process_corum_data_unsupported_witness :
  (∃ e, (process_corum_data demo_str demo_LoadCorum demo_Coexpression
           "rat" demo_world).1 = inl e)
  ∧ files (process_corum_data demo_str demo_LoadCorum demo_Coexpression
             "rat" demo_world).2 = files demo_world.
Proof.
  destruct (process_corum_data_unsupported demo_str demo_LoadCorum
              demo_Coexpression "rat" demo_world) as (Hfail & Hfiles & _).
  - discriminate.
  - discriminate.
  - split; [exact Hfail | exact Hfiles].
Defined.



(** The table of [demo_table] read back. *)
Lemma analyse_corum_data_no_rows_witness :
  read_rows demo_table = []
  ∧ (analyse_corum_data demo_float false zero_rng
       "data/coexpressdb_corum_combined.tsv" table_world).1
    = inr (0%nat, 0%nat, Fin 1%Qc).
Proof.
  destruct (analyse_corum_data_no_rows demo_float false zero_rng
              "data/coexpressdb_corum_combined.tsv" table_world demo_table)
    as (Hrows & _ & Hreport).
  - reflexivity.
  - split; [exact Hrows | exact Hreport].
Defined.

(** * Further properties of the code *)

(** ** [load_data] and the classification table *)


Lemma load_data_world filename w :
  (load_data filename w).2 = emit (EvOpenRead filename) w.
Proof.
  unfold load_data, io_bind, open_read, lift.
  destruct (files w !! filename) as [text|]; simpl; [|done].
  by destruct (getitem (split_ws <$> file_lines text) 0).
Qed.


Lemma build_decay_defs_from (data : list (list string)) (m0 : gmap string string) :
  Forall (fun line => line ≠ []) data ->
  ∃ m, foldM (fun m line =>
                let* k := getitem line 0 in
                match last line with
                | Some v => ret (<[k := v]> m)
                | None => raise IndexError
                end) m0 data = inr m
    ∧ ∀ k, m !! k = match last (filter (fun line => head line = Some k) data) with
                    | Some line => last line
                    | None => m0 !! k
                    end.
Proof.
  intros Hne. revert m0. induction Hne as [|line data Hline Hne IH]; intros m0.
  - exists m0. done.
  - destruct line as [|k0 fields]; [done|].
    destruct (last (k0 :: fields)) as [v|] eqn:Hlast;
      [|by apply last_None in Hlast].
    simpl. unfold getitem. simpl. rewrite Hlast. simpl.
    destruct (IH (<[k0 := v]> m0)) as (m & Hrun & Hget).
    exists m. split; [done|]. intros k. rewrite Hget.
    rewrite filter_cons.
    destruct (decide (head (k0 :: fields) = Some k)) as [Hk|Hk].
    + simpl in Hk. simplify_eq.
      destruct (filter _ data) as [|l ls] eqn:Hf.
      * simpl. rewrite Hlast. by rewrite lookup_insert_eq.
      * rewrite last_cons_cons.
        destruct (last (l :: ls)) eqn:Hl; [done|]. by apply last_None in Hl.
    + destruct (last (filter _ data)); [done|].
      apply lookup_insert_ne. simpl in Hk. congruence.
Qed.

Lemma build_decay_defs_run (data : list (list string)) :
  Forall (fun line => line ≠ []) data ->
  ∃ decay_defs,
    build_decay_defs data = inr decay_defs
    ∧ ∀ k, decay_defs !! k = last_label data k.
Proof.
  intros Hne. destruct (build_decay_defs_from data ∅ Hne) as (m & Hrun & Hget).
  exists m. split; [done|]. intros k. rewrite Hget. unfold last_label.
  destruct (last (filter _ data)); [done|]. by rewrite lookup_empty.
Qed.

Lemma build_decay_defs_blank (data : list (list string)) :
  [] ∈ data -> build_decay_defs data = inl IndexError.
Proof.
  unfold build_decay_defs. generalize (∅ : gmap string string).
  induction data as [|line data IH]; intros m0 Hin; [by apply elem_of_nil in Hin|].
  simpl. destruct line as [|k0 fields]; [done|].
  apply elem_of_cons in Hin as [?|Hin]; [done|].
  unfold getitem. simpl.
  destruct (last (k0 :: fields)) as [v|]; simpl; [by apply IH|done].
Qed.

(** X2.  The classification map built from the table lines gives every id
    the last field of the last line that starts with it (a later line
    overrides an earlier one) and knows no other id; a blank line, which
    splits into no field, raises [IndexError]. *)
Theorem build_decay_defs_lookup (data : list (list string)) :
  (Forall (fun line => line ≠ []) data ->
     ∃ decay_defs,
       build_decay_defs data = inr decay_defs
       ∧ ∀ k, decay_defs !! k = last_label data k)
  ∧ ([] ∈ data -> build_decay_defs data = inl IndexError).
Proof.
  split; [apply build_decay_defs_run | apply build_decay_defs_blank].
Qed.

(** ** [match_entrez_to_uniprot] *)

(** X3.  [match_entrez_to_uniprot] returns [None], without raising,
    exactly for an id that is in no slot of the complex. *)
Theorem match_entrez_to_uniprot_None (comp : Complex) (entrezid : string) :
  match_entrez_to_uniprot comp entrezid = inr VNone ↔ ¬ member_of comp entrezid.
Proof.
  rewrite match_entrez_to_uniprot_resolve. split.
  - intros Hnone Hm. destruct (member_of_find comp entrezid Hm) as [p Hp].
    rewrite Hp in Hnone. by destruct (resolve comp entrezid).
  - intros Hnm. destruct (list_find _ (entrez comp)) as [[i slot]|] eqn:Hfind; [|done].
    apply list_find_Some in Hfind as (Hi & Hin & _).
    destruct Hnm. apply elem_of_concat. exists slot. split; [done|].
    by eapply list_elem_of_lookup_2.
Qed.

(** X4.  On a complex whose parallel lists are aligned, every id of the
    complex resolves: the result is the secondary id at the position of
    the first occurrence of the id in the first slot that holds it. *)
Theorem match_entrez_to_uniprot_aligned (comp : Complex) (entrezid : string) :
  aligned comp -> member_of comp entrezid ->
  ∃ i j slot uslot u,
    match_entrez_to_uniprot comp entrezid = inr (VStr u)
    ∧ entrez comp !! i = Some slot ∧ uniprot comp !! i = Some uslot
    ∧ slot !! j = Some entrezid ∧ uslot !! j = Some u
    ∧ (∀ i' slot', (i' < i)%nat -> entrez comp !! i' = Some slot' -> entrezid ∉ slot')
    ∧ (∀ j', (j' < j)%nat -> slot !! j' ≠ Some entrezid).
Proof.
  intros Hal Hm. rewrite match_entrez_to_uniprot_member by done.
  unfold resolve. destruct (member_of_find comp entrezid Hm) as [[i slot] Hfind].
  rewrite Hfind. apply list_find_Some in Hfind as (Hi & Hin & Hfirst).
  destruct (Forall2_lookup_l _ _ _ _ _ Hal Hi) as (uslot & Hu & Hlen).
  rewrite Hu, (list_index_find entrezid slot Hin).
  pose proof (list_index_find entrezid slot Hin) as Hj.
  apply list_find_Some in Hj as (Hj & _ & Hjfirst).
  destruct (uslot !! list_index entrezid slot) as [u|] eqn:Hup.
  - exists i, (list_index entrezid slot), slot, uslot, u.
    repeat split; try done.
    + intros i' slot' Hlt Hs. by eapply Hfirst.
    + intros j' Hlt Hs. by eapply Hjfirst.
  - apply lookup_ge_None in Hup. apply lookup_lt_Some in Hj. lia.
Qed.

(** ** [calculate_avg_coexpression] *)

Lemma dict_ext {V} (d d' : dict V) :
  dict_keys d = dict_keys d' -> NoDup (dict_keys d) ->
  (∀ k, k ∈ dict_keys d -> dict_get d k = dict_get d' k) ->
  d = d'.
Proof.
  unfold dict_keys. revert d'.
  induction d as [|[k v] d IH]; intros [|[k' v'] d'] Hkeys Hnd Hget; try done.
  simpl in *. simplify_eq. apply NoDup_cons in Hnd as [Hnin Hnd].
  pose proof (Hget k' (list_elem_of_here _ _)) as Hk.
  rewrite !bool_decide_eq_true_2 in Hk by done. simplify_eq.
  f_equal. apply IH; [done|done|]. intros k Hin.
  specialize (Hget k (list_elem_of_further _ _ _ Hin)).
  rewrite !bool_decide_eq_false_2 in Hget by (intros ->; done). done.
Qed.

Lemma omap_ext_in {A B} (f g : A -> option B) (l : list A) :
  (∀ x, x ∈ l -> f x = g x) -> omap f l = omap g l.
Proof.
  induction l as [|x l IH]; intros Hfg; [done|]. simpl.
  rewrite (Hfg x) by left.
  destruct (g x); [f_equal|]; apply IH; intros y Hy; apply Hfg; by right.
Qed.

(** X5.  The averages of a complex depend on the score source only
    through the pairs of two different ids of that complex: the source is
    never asked for a self-pair nor for an id outside the list. *)
Theorem calculate_avg_coexpression_pairs_only (coex coex' : Coex)
    (members : list string) :
  (∀ a b, a ∈ members -> b ∈ members -> a ≠ b -> coex a b = coex' a b) ->
  calculate_avg_coexpression coex members
  = calculate_avg_coexpression coex' members.
Proof.
  intros Hagree.
  destruct (calculate_avg_coexpression_run coex members) as (d & Hd & Hk & Hg).
  destruct (calculate_avg_coexpression_run coex' members) as (d' & Hd' & Hk' & Hg').
  rewrite Hd, Hd'. f_equal. apply dict_ext.
  - by rewrite Hk, Hk'.
  - rewrite Hk. apply distinct_NoDup.
  - intros k Hin. rewrite Hk, distinct_elem_of in Hin.
    rewrite Hg, Hg' by done. do 2 f_equal. unfold usable_scores.
    apply omap_ext_in. intros q Hq.
    rewrite list_elem_of_filter, distinct_elem_of in Hq. destruct Hq as [Hne Hq].
    apply Hagree; [done|done|]. by intros ->.
Qed.

Lemma NoDup_only (l : list string) b :
  NoDup l -> (∀ x, x ∈ l ↔ x = b) -> l = [b].
Proof.
  intros Hnd Hl. destruct l as [|x l].
  - assert (Hb : b ∈ []) by by apply Hl. by apply elem_of_nil in Hb.
  - assert (x = b) as -> by (apply Hl; left).
    apply NoDup_cons in Hnd as [Hnin Hnd]. destruct l as [|y l]; [done|].
    assert (y = b) as -> by (apply Hl; right; left). destruct Hnin. left.
Qed.

(** X6.  In a complex of exactly two different ids with a score source
    that is symmetric on them, the two ids get the same average (the
    reason the Significance Tester skips complexes of two rows). *)
Theorem calculate_avg_coexpression_dimer (coex : Coex) (members : list string)
    (a b : string) (avg_coex : dict pyval) :
  a ≠ b -> a ∈ members -> b ∈ members ->
  (∀ x, x ∈ members -> x = a ∨ x = b) ->
  coex a b = coex b a ->
  calculate_avg_coexpression coex members = inr avg_coex ->
  dict_get avg_coex a = dict_get avg_coex b
  ∧ dict_get avg_coex a = Some (match coex a b with
                                | Some cor => VFloat (np_mean [cor])
                                | None => VStr "NA"
                                end).
Proof.
  intros Hab Ha Hb Honly Hsym Hrun.
  destruct (calculate_avg_coexpression_run coex members) as (d & Hd & _ & Hg).
  rewrite Hrun in Hd. simplify_eq.
  assert (Hothers : ∀ p q, p ≠ q -> p ∈ members -> q ∈ members ->
            (∀ x, x ∈ members -> x = p ∨ x = q) ->
            filter (fun x => x ≠ p) (distinct members) = [q]).
  { intros p q Hpq Hp Hq Hpq_only. apply NoDup_only.
    - apply NoDup_filter, distinct_NoDup.
    - intros x. rewrite list_elem_of_filter, distinct_elem_of. split.
      + intros [Hne Hx]. destruct (Hpq_only x Hx); [done|done].
      + intros ->. split; [by intros ->|done]. }
  rewrite !Hg by done. unfold usable_scores.
  rewrite (Hothers a b), (Hothers b a); try done; [|naive_solver].
  simpl. rewrite <- Hsym. split; [done|]. by destruct (coex a b).
Qed.

(** ** [get_best_from_multiple_subs] and the rows *)

Lemma first_least_strict_key {A} (key : A -> nat * nat) b c l1 l2 :
  first_least key b (l1 ++ c :: l2) ->
  Forall (fun c' => key_le (key c') (key c) = false) (l1 ++ l2) ->
  b = c.
Proof.
  intros Hb Hstrict.
  pose proof (first_least_min key b _ c Hb) as Hle.
  assert (Hc : key_le (key b) (key c) = true) by (apply Hle; set_solver).
  apply first_least_elem_of in Hb. rewrite Forall_forall in Hstrict.
  apply elem_of_app in Hb as [Hb|Hb];
    [|apply elem_of_cons in Hb as [Hb|Hb]; [done|]].
  - rewrite Hstrict in Hc by set_solver. done.
  - rewrite Hstrict in Hc by set_solver. done.
Qed.

Lemma first_least_head {A} (key : A -> nat * nat) b c l :
  first_least key b (c :: l) ->
  Forall (fun c' => key_le (key c) (key c') = true) l ->
  b = c.
Proof.
  intros (l1 & l2 & Hl & Hbefore & _) Hall.
  destruct l1 as [|x l1]; simpl in Hl; [by simplify_eq|]. simplify_eq.
  apply Forall_cons in Hbefore as [Hx _].
  rewrite Forall_forall in Hall. rewrite Hall in Hx by set_solver. done.
Qed.

Lemma count_NA_single v : count_NA [v] = if is_NA v then 1%nat else 0%nat.
Proof.
  unfold count_NA. rewrite filter_cons. by destruct (is_NA v).
Qed.

Section ResolverMore.

Variable float_str : float -> string.
Variables (species : string) (decay_defs : gmap string string) (struc : string).
Variables (comp : Complex) (avg_coex : dict pyval).

(** X7.  The resolver prefers data on coexpression to data on the
    classification: a candidate that, against every other candidate, has
    fewer ['NA'] fields, or as many but a coexpression value where the
    other has ['NA'], is the one selected, in whatever order the
    candidate ids are listed. *)
Theorem get_best_from_multiple_subs_priority (subunits subunits' : list string)
    (l1 l2 : list info) (c : info) :
  candidates_of species decay_defs struc comp avg_coex subunits (l1 ++ c :: l2) ->
  Forall (fun c' =>
            (count_NA (fields c) < count_NA (fields c'))%nat
            ∨ (count_NA (fields c) = count_NA (fields c')
               ∧ is_NA (i_coexpression c) = false
               ∧ is_NA (i_coexpression c') = true))
         (l1 ++ l2) ->
  subunits ≡ₚ subunits' ->
  get_best_from_multiple_subs float_str species decay_defs struc comp avg_coex
    subunits'
  = inr (py_str float_str <$> fields c).
Proof.
  intros HF Hbetter Hperm.
  assert (Hstrict : Forall (fun c' => key_le (sort_key c') (sort_key c) = false)
                           (l1 ++ l2)).
  { eapply Forall_impl; [exact Hbetter|]. intros c' Hc'.
    apply key_le_false. unfold sort_key. cbn [fst snd].
    rewrite !count_NA_single.
    destruct Hc' as [?|(? & -> & ->)]; [by left|]. right. lia. }
  destruct (Forall2_Permutation_l _ _ _ _ Hperm HF) as (cands' & HF' & Hcp).
  assert (Hc : c ∈ cands') by (rewrite <- Hcp; set_solver).
  apply list_elem_of_split in Hc as (l1' & l2' & ->).
  assert (Hrest : l1 ++ l2 ≡ₚ l1' ++ l2').
  { apply (Permutation_cons_inv (a := c)). by rewrite !Permutation_middle. }
  rewrite Hrest in Hstrict.
  destruct (sort_by_head sort_key (l1' ++ c :: l2')) as (best & Hhead & Hfirst).
  { by destruct l1'. }
  rewrite (get_best_head float_str species decay_defs struc comp avg_coex
             subunits' _ best HF' Hhead).
  by rewrite (first_least_strict_key sort_key best c l1' l2' Hfirst Hstrict).
Qed.

(** X8.  Ties go to the candidate listed first: the first id of the slot
    is selected unless a later candidate has a strictly smaller key. *)
Theorem get_best_from_multiple_subs_first (subunits : list string)
    (c : info) (cands : list info) :
  candidates_of species decay_defs struc comp avg_coex subunits (c :: cands) ->
  Forall (fun c' => key_le (sort_key c) (sort_key c') = true) cands ->
  get_best_from_multiple_subs float_str species decay_defs struc comp avg_coex
    subunits
  = inr (py_str float_str <$> fields c).
Proof.
  intros HF Hall.
  destruct (sort_by_head sort_key (c :: cands)) as (best & Hhead & Hfirst); [done|].
  rewrite (get_best_head float_str species decay_defs struc comp avg_coex
             subunits _ best HF Hhead).
  by rewrite (first_least_head sort_key best c cands Hfirst Hall).
Qed.

End ResolverMore.

(** ** The files of [process_corum_data] *)

Lemma string_app_nil_r (s : string) : s +:+ "" = s.
Proof.
  induction s as [|c s IH]; [done|]. exact (f_equal (String c) IH).
Qed.

Lemma string_app_assoc (s1 s2 s3 : string) :
  s1 +:+ (s2 +:+ s3) = (s1 +:+ s2) +:+ s3.
Proof.
  induction s1 as [|c s1 IH]; [done|]. exact (f_equal (String c) IH).
Qed.

Lemma write_all_app name a b w :
  write_all name (a ++ b) w = write_all name b (write_all name a w).
Proof. unfold write_all. apply foldl_app. Qed.

Lemma write_all_files name texts w content :
  files w !! name = Some content ->
  files (write_all name texts w) = <[name := content +:+ text_of texts]> (files w).
Proof.
  revert w content. induction texts as [|t texts IH]; intros w content Hc; simpl.
  - rewrite string_app_nil_r. by rewrite insert_id.
  - rewrite (IH _ (content +:+ t)); simpl.
    + rewrite Hc. simpl. by rewrite insert_insert_eq, string_app_assoc.
    + rewrite Hc. simpl. by rewrite lookup_insert_eq.
Qed.

Lemma write_all_log name texts w :
  log (write_all name texts w) = log w ++ (EvWrite name <$> texts).
Proof.
  revert w. induction texts as [|t texts IH]; intros w; simpl.
  - by rewrite app_nil_r.
  - rewrite IH. simpl. by rewrite <- app_assoc.
Qed.

(** A loop whose iterations write their texts and return writes all the
    texts, in order. *)
Lemma for_io_write_all {A} (l : list A) (body : A -> io unit) name textss :
  Forall2 (fun x texts => ∀ w, body x w = (inr tt, write_all name texts w))
          l textss ->
  ∀ w, for_io l body w = (inr tt, write_all name (concat textss) w).
Proof.
  induction 1 as [|x texts l textss Hx HF IH]; intros w; simpl; [done|].
  unfold io_bind. rewrite Hx. rewrite IH. by rewrite write_all_app.
Qed.

Lemma resolve_aligned comp sub :
  aligned comp -> member_of comp sub -> is_Some (resolve comp sub).
Proof.
  intros Hal Hm. unfold resolve.
  destruct (member_of_find comp sub Hm) as [[i slot] Hfind]. rewrite Hfind.
  apply list_find_Some in Hfind as (Hi & Hin & _).
  destruct (Forall2_lookup_l _ _ _ _ _ Hal Hi) as (uslot & Hu & Hlen).
  rewrite Hu, (list_index_find sub slot Hin).
  pose proof (list_index_find sub slot Hin) as Hj.
  apply list_find_Some in Hj as (Hj & _).
  apply lookup_lt_is_Some. apply lookup_lt_Some in Hj. lia.
Qed.

Section Rows.

Variable float_str : float -> string.
Variables (species : string) (decay_defs : gmap string string) (struc : string).
Variables (comp : Complex) (coex : Coex) (avg_coex : dict pyval).

Hypothesis avg_coex_computed :
  calculate_avg_coexpression coex (concat (entrez comp)) = inr avg_coex.

(** The loop body fails on a slot only when the slot is empty or one of
    its ids has no aligned secondary id. *)
Lemma slot_info_fails_only subunit e :
  subunit ∈ entrez comp ->
  slot_info float_str species decay_defs struc comp avg_coex subunit = inl e ->
  subunit = [] ∨ ∃ sub, sub ∈ subunit ∧ resolve comp sub = None.
Proof.
  intros Hslot.
  assert (Hm : ∀ sub, sub ∈ subunit -> member_of comp sub).
  { intros sub Hin. apply elem_of_concat. eauto. }
  unfold slot_info. case_bool_decide as Hlen.
  - destruct subunit as [|sub [|]]; try done. simpl.
    rewrite (candidate_member species decay_defs struc comp coex avg_coex
               avg_coex_computed) by (apply Hm; left).
    destruct (resolve comp sub) as [u|] eqn:Hres; simpl; [done|].
    intros _. right. exists sub. split; [left|done].
  - unfold get_best_from_multiple_subs.
    pose proof (collect_outcome species decay_defs struc comp coex avg_coex
                  avg_coex_computed [] subunit Hm) as Hcol.
    destruct (foldM _ [] subunit) as [e'|l]; simpl.
    + intros _. right. by destruct Hcol as [_ ?].
    + destruct Hcol as (cands & -> & HF). simpl.
      destruct cands as [|c0 cands].
      * intros _. left. by apply Forall2_nil_inv_r in HF.
      * destruct (sort_by_head sort_key (c0 :: cands)) as (best & Hhead & _);
          [done|].
        unfold getitem. rewrite <- head_lookup, Hhead. done.
Qed.

(** X9.  The loop body either builds a row of six fields, which starts
    with the complex id and one of the ids of the slot and ends with the
    species, or raises [IndexError]; it raises only on an empty slot or
    on an id without an aligned secondary id, and never raises
    [KeyError] for an id missing from the average map. *)
Theorem slot_info_shape (subunit : list string) :
  subunit ∈ entrez comp ->
  match slot_info float_str species decay_defs struc comp avg_coex subunit with
  | inr row =>
      length row = 6%nat
      ∧ row !! 0%nat = Some struc
      ∧ row !! 5%nat = Some species
      ∧ ∃ sub, sub ∈ subunit ∧ row !! 1%nat = Some sub
  | inl e =>
      e = IndexError
      ∧ (subunit = [] ∨ ∃ sub, sub ∈ subunit ∧ resolve comp sub = None)
  end.
Proof.
  intros Hslot.
  pose proof (slot_info_outcome float_str species decay_defs struc comp coex
                avg_coex avg_coex_computed subunit Hslot) as Hout.
  pose proof (slot_info_fails_only subunit) as Hfail.
  destruct (slot_info _ _ _ _ _ _ subunit) as [e|row].
  - split; [done|]. by eapply Hfail.
  - destruct Hout as (sub & u & Hin & _ & ->). simpl.
    split; [done|]. split; [done|]. split; [done|]. by exists sub.
Qed.

(** On an aligned complex every non-empty slot gets its row. *)
Lemma slot_info_aligned subunit :
  aligned comp -> subunit ∈ entrez comp -> subunit ≠ [] ->
  ∃ sub u,
    sub ∈ subunit ∧ resolve comp sub = Some u
    ∧ slot_info float_str species decay_defs struc comp avg_coex subunit
      = inr (py_str float_str
             <$> fields (record_of species decay_defs struc sub u
                           (mean_or_NA (usable_scores coex (concat (entrez comp))
                                          sub)))).
Proof.
  intros Hal Hslot Hne.
  pose proof (slot_info_outcome float_str species decay_defs struc comp coex
                avg_coex avg_coex_computed subunit Hslot) as Hout.
  pose proof (slot_info_fails_only subunit) as Hfail.
  destruct (slot_info _ _ _ _ _ _ subunit) as [e|row].
  - destruct (Hfail e Hslot eq_refl) as [?|(sub & Hin & Hnone)]; [done|].
    destruct (resolve_aligned comp sub Hal) as [u Hu]; [|congruence].
    apply elem_of_concat. eauto.
  - destruct Hout as (sub & u & Hin & Hres & ->). eauto.
Qed.

End Rows.

Lemma load_data_read filename w text header data :
  files w !! filename = Some text ->
  split_ws <$> file_lines text = header :: data ->
  load_data filename w = (inr (header, data), emit (EvOpenRead filename) w).
Proof.
  intros Hfile Hlines. unfold load_data, io_bind, open_read, lift.
  rewrite Hfile. simpl. rewrite Hlines. simpl. by rewrite drop_0.
Qed.

Section Output.

Variable float_str : float -> string.
Variable LoadCorum : string -> string -> result Corum.
Variable Coexpression : result Coex.

Variables (species : string) (core : Corum) (coex : Coex).
Variables (data : list (list string)) (decay_defs : gmap string string).

Hypothesis decay_defs_built : ∀ k, decay_defs !! k = last_label data k.

Lemma record_line struc comp sub u :
  join tab (py_str float_str
            <$> fields (record_of species decay_defs struc sub u
                          (mean_or_NA (usable_scores coex (concat (entrez comp))
                                         sub))))
  +:+ newline
  = table_line float_str species data coex struc comp sub u.
Proof.
  unfold table_line. simpl. rewrite decay_defs_built.
  unfold mean_or_NA. by destruct (usable_scores _ _ _).
Qed.

(** The rows of the slots of one complex, written one by one. *)
Lemma slots_written struc comp avg_coex slots :
  calculate_avg_coexpression coex (concat (entrez comp)) = inr avg_coex ->
  aligned comp ->
  Forall (fun subunit => subunit ∈ entrez comp ∧ subunit ≠ []) slots ->
  ∃ lines,
    Forall2 (fun subunit texts =>
               ∀ w, (do! row := lift (slot_info float_str species decay_defs
                                        struc comp avg_coex subunit) in
                     write (ofname species) (join tab row +:+ newline)) w
                    = (inr tt, write_all (ofname species) texts w))
            slots ((fun line => [line]) <$> lines)
    ∧ Forall2 (fun subunit line =>
                 ∃ sub u, sub ∈ subunit ∧ resolve comp sub = Some u
                   ∧ line = table_line float_str species data coex struc comp
                              sub u)
              slots lines.
Proof.
  intros Havg Hal Hslots. induction Hslots as [|subunit slots [Hin Hne] _ IH].
  - exists []. split; constructor.
  - destruct IH as (lines & Hbody & Hrows).
    destruct (slot_info_aligned float_str species decay_defs struc comp coex
                avg_coex Havg subunit Hal Hin Hne) as (sub & u & Hsub & Hres & Hrow).
    exists (table_line float_str species data coex struc comp sub u :: lines).
    split; constructor; try done.
    + intros w. unfold io_bind, lift. rewrite Hrow, record_line. done.
    + eauto.
Qed.

(** One complex of a well-formed database: its rows are written. *)
Lemma process_struc_written struc comp :
  complexes core !! struc = Some comp ->
  aligned comp -> Forall (fun subunit => subunit ≠ []) (entrez comp) ->
  ∃ lines,
    (∀ w, process_struc float_str species core coex decay_defs struc w
          = (inr tt, write_all (ofname species) lines w))
    ∧ Forall2 (fun subunit line =>
                 ∃ sub u, sub ∈ subunit ∧ resolve comp sub = Some u
                   ∧ line = table_line float_str species data coex struc comp
                              sub u)
              (entrez comp) lines.
Proof.
  intros Hcomp Hal Hne.
  destruct (calculate_avg_coexpression_run coex (concat (entrez comp)))
    as (avg_coex & Havg & _).
  destruct (slots_written struc comp avg_coex (entrez comp) Havg Hal)
    as (lines & Hbody & Hrows).
  { apply Forall_forall. intros subunit Hin. split; [done|].
    rewrite Forall_forall in Hne. by apply Hne. }
  exists lines. split; [|done]. intros w.
  unfold process_struc, io_bind at 1 2, lift, Corum_getitem.
  rewrite Hcomp. simpl. rewrite Havg.
  rewrite (for_io_write_all _ _ (ofname species) _ Hbody).
  do 2 f_equal. clear. induction lines as [|l lines IH]; simpl; [done|]. by f_equal.
Qed.

(** The complexes of a well-formed database: all their rows are written,
    complex after complex. *)
Lemma strucs_written (todo : list string) :
  (∀ struc, struc ∈ todo ->
     ∃ comp, complexes core !! struc = Some comp
       ∧ aligned comp ∧ Forall (fun subunit => subunit ≠ []) (entrez comp)) ->
  ∃ lines,
    (∀ w, for_io todo (process_struc float_str species core coex decay_defs) w
          = (inr tt, write_all (ofname species) lines w))
    ∧ Forall2 (fun '(struc, comp, subunit) line =>
                 ∃ sub u, sub ∈ subunit ∧ resolve comp sub = Some u
                   ∧ line = table_line float_str species data coex struc comp
                              sub u)
              (struc ← todo;
               match complexes core !! struc with
               | Some comp => (fun subunit => (struc, comp, subunit)) <$> entrez comp
               | None => []
               end) lines.
Proof.
  induction todo as [|struc todo IH]; intros Hwf.
  - exists []. split; [done|]. constructor.
  - destruct (Hwf struc) as (comp & Hcomp & Hal & Hne); [left|].
    destruct (process_struc_written struc comp Hcomp Hal Hne) as (l1 & Hrun1 & Hrows1).
    destruct IH as (l2 & Hrun2 & Hrows2); [intros s Hs; apply Hwf; by right|].
    exists (l1 ++ l2). split.
    + intros w. simpl. unfold io_bind. rewrite Hrun1, Hrun2.
      by rewrite write_all_app.
    + simpl. rewrite Hcomp. apply Forall2_app; [|done].
      apply Forall2_fmap_l. done.
Qed.

End Output.

Lemma world_eq (w1 w2 : world) :
  files w1 = files w2 -> log w1 = log w2 -> w1 = w2.
Proof. destruct w1, w2. simpl. by intros -> ->. Qed.

Section Runs.

Variable float_str : float -> string.
Variable LoadCorum : string -> string -> result Corum.
Variable Coexpression : result Coex.

(** X10.  A complete run.  When the database and the score source load,
    the classification file exists with a header line and no blank line,
    and the database is well formed, [process_corum_data] returns; it
    changes the output file only, which then holds the header line
    followed by one line per slot, complex after complex and slot after
    slot, each line the tab-separated record of one id of its slot with
    its aligned secondary id; the events are the two loads, the reading
    of the classification file, the opening of the output file and one
    write per line. *)
Theorem process_corum_data_complete (species : string) (w : world)
    (core : Corum) (coex : Coex) (fname text : string)
    (fields : list string) (data : list (list string)) :
  LoadCorum (title species) "core" = inr core ->
  Coexpression = inr coex ->
  classification_file species = Some fname ->
  files w !! fname = Some text ->
  split_ws <$> file_lines text = fields :: data ->
  Forall (fun line => line ≠ []) data ->
  well_formed core ->
  ∃ lines,
    process_corum_data float_str LoadCorum Coexpression species w
    = (inr tt,
       {| files := <[ofname species := text_of (header :: lines)]> (files w);
          log := log w
                 ++ [EvLoadCorum (title species) "core"; EvCoexpression;
                     EvOpenRead fname; EvOpenWrite (ofname species)]
                 ++ (EvWrite (ofname species) <$> header :: lines) |})
    ∧ Forall2 (fun '(struc, comp, subunit) line =>
                 ∃ sub u, sub ∈ subunit ∧ resolve comp sub = Some u
                   ∧ line = table_line float_str species data coex struc comp
                              sub u)
              (slots_of core) lines.
Proof.
  intros Hload Hcoex Hfile Htext Hlines Hdata Hwf.
  destruct (build_decay_defs_run data Hdata) as (decay_defs & Hbuild & Hget).
  destruct (strucs_written float_str species core coex data decay_defs Hget
              (strucs core) Hwf) as (lines & Hrun & Hrows).
  exists lines. split; [|exact Hrows].
  unfold process_corum_data. unfold io_bind at 1. rewrite Hload.
  unfold io_bind at 1. rewrite Hcoex.
  set (w2 := emit EvCoexpression (emit (EvLoadCorum (title species) "core") w)).
  assert (Hdata_io :
            (if bool_decide (species = "human")
             then do! hd := load_data "data/NED_human.txt" in io_ret (Some hd.2)
             else if bool_decide (species = "mouse")
                  then do! hd := load_data "data/NED_mouse_update.txt" in
                       io_ret (Some hd.2)
                  else io_ret None) w2
            = (inr (Some data), emit (EvOpenRead fname) w2)).
  { unfold classification_file in Hfile.
    repeat case_bool_decide; simplify_eq; unfold io_bind;
      by rewrite (load_data_read _ w2 text fields data Htext Hlines). }
  unfold io_bind at 1. rewrite Hdata_io.
  unfold io_bind at 1, lift at 1. cbn [ret].
  unfold io_bind at 1, lift at 1. rewrite Hbuild.
  unfold io_bind at 1, open_write at 1.
  unfold io_bind at 1, write at 1. rewrite Hrun.
  f_equal. set (name := ofname species).
  apply world_eq.
  - rewrite (write_all_files name lines _ header).
    + cbn [files emit]. by rewrite !insert_insert_eq.
    + cbn [files emit]. rewrite !lookup_insert_eq. done.
  - rewrite write_all_log. subst w2. cbn [log emit fmap list_fmap].
    rewrite <- !app_assoc. done.
Qed.

End Runs.

Lemma appends_to_lift name {A} (m : result A) : appends_to name (lift m).
Proof.
  intros w content Hc. exists "". unfold lift. simpl.
  by rewrite string_app_nil_r, insert_id.
Qed.

Lemma appends_to_write name text : appends_to name (write name text).
Proof.
  intros w content Hc. exists text. unfold write. simpl. by rewrite Hc.
Qed.

Lemma appends_to_bind name {A B} (m : io A) (k : A -> io B) :
  appends_to name m -> (∀ x, appends_to name (k x)) ->
  appends_to name (io_bind m k).
Proof.
  intros Hm Hk w content Hc. destruct (Hm w content Hc) as [r1 Hr1].
  unfold io_bind. destruct (m w) as [[e|x] w1]; simpl in *; [by exists r1|].
  destruct (Hk x w1 (content +:+ r1)) as [r2 Hr2].
  { by rewrite Hr1, lookup_insert_eq. }
  exists (r1 +:+ r2). by rewrite Hr2, Hr1, insert_insert_eq, string_app_assoc.
Qed.

Lemma appends_to_for_io name {A} (l : list A) (body : A -> io unit) :
  (∀ x, appends_to name (body x)) -> appends_to name (for_io l body).
Proof.
  intros Hbody. induction l as [|x l IH]; simpl.
  - intros w content Hc. exists "". simpl. by rewrite string_app_nil_r, insert_id.
  - apply appends_to_bind; [apply Hbody|]. intros _. apply IH.
Qed.

Section Files.

Variable float_str : float -> string.
Variable LoadCorum : string -> string -> result Corum.
Variable Coexpression : result Coex.

Lemma process_struc_appends species core coex decay_defs struc :
  appends_to (ofname species)
    (process_struc float_str species core coex decay_defs struc).
Proof.
  unfold process_struc.
  apply appends_to_bind; [apply appends_to_lift|]. intros comp.
  apply appends_to_bind; [apply appends_to_lift|]. intros avg_coex.
  apply appends_to_for_io. intros subunit.
  apply appends_to_bind; [apply appends_to_lift|]. intros row.
  apply appends_to_write.
Qed.

Lemma process_corum_data_files_run (species : string) (w : world) :
  ∃ r w',
    process_corum_data float_str LoadCorum Coexpression species w = (r, w')
    ∧ (((∃ e, r = inl e) ∧ files w' = files w)
       ∨ ∃ rest, files w' = <[ofname species := header +:+ rest]> (files w)).
Proof.
  unfold process_corum_data. unfold io_bind at 1.
  destruct (LoadCorum (title species) "core") as [e|core].
  { eexists _, _. split; [done|]. left. split; [by eexists|done]. }
  unfold io_bind at 1.
  destruct Coexpression as [e|coex].
  { eexists _, _. split; [done|]. left. split; [by eexists|done]. }
  set (w2 := emit EvCoexpression (emit (EvLoadCorum (title species) "core") w)).
  unfold io_bind at 1.
  assert (Hdata : ∃ r w3,
            (if bool_decide (species = "human")
             then do! hd := load_data "data/NED_human.txt" in io_ret (Some hd.2)
             else if bool_decide (species = "mouse")
                  then do! hd := load_data "data/NED_mouse_update.txt" in
                       io_ret (Some hd.2)
                  else io_ret None) w2 = (r, w3) ∧ files w3 = files w).
  { repeat case_bool_decide; unfold io_bind, io_ret.
    - pose proof (load_data_world "data/NED_human.txt" w2) as Hw.
      destruct (load_data _ w2) as [[e|hd] w3]; simpl in Hw; subst w3; eauto.
    - pose proof (load_data_world "data/NED_mouse_update.txt" w2) as Hw.
      destruct (load_data _ w2) as [[e|hd] w3]; simpl in Hw; subst w3; eauto.
    - eauto. }
  destruct Hdata as (r & w3 & -> & Hw3).
  destruct r as [e|data].
  { eexists _, _. split; [done|]. left. split; [by eexists|done]. }
  unfold io_bind at 1, lift at 1.
  destruct data as [data|]; cbn [ret raise]; cycle 1.
  { eexists _, _. split; [done|]. left. split; [by eexists|done]. }
  unfold io_bind at 1, lift at 1.
  destruct (build_decay_defs data) as [e|decay_defs].
  { eexists _, _. split; [done|]. left. split; [by eexists|done]. }
  unfold io_bind at 1, open_write at 1.
  unfold io_bind at 1, write at 1.
  match goal with
  | |- context [for_io _ _ ?w5] =>
      destruct (appends_to_for_io (ofname species) (strucs core)
                  (process_struc float_str species core coex decay_defs)
                  (process_struc_appends species core coex decay_defs)
                  w5 header) as [rest Hrest];
      [cbn [files]; by rewrite !lookup_insert_eq|];
      destruct (for_io (strucs core)
                  (process_struc float_str species core coex decay_defs) w5)
        as [r w'] eqn:Hloop
  end.
  exists r, w'. split; [done|]. right. exists rest.
  cbn [snd] in Hrest. rewrite Hrest. cbn [files]. rewrite Hw3.
  by rewrite !insert_insert_eq.
Qed.

(** X11.  Whatever happens, [process_corum_data] changes no file other
    than its output file: either the run ends with an exception before
    the output file is opened and every file is as it was, or the output
    file has been replaced by a text that starts with the header line,
    also when a later step raises and the table is left incomplete. *)
Theorem process_corum_data_files (species : string) (w : world) :
  ((∃ e, (process_corum_data float_str LoadCorum Coexpression species w).1 = inl e)
   ∧ files (process_corum_data float_str LoadCorum Coexpression species w).2
     = files w)
  ∨ ∃ rest,
      files (process_corum_data float_str LoadCorum Coexpression species w).2
      = <[ofname species := header +:+ rest]> (files w).
Proof.
  destruct (process_corum_data_files_run species w) as (r & w' & -> & H).
  exact H.
Qed.

(** X12.  The classification table is read before the output file is
    opened: when the database and the score source load but the
    classification file is missing, is empty, or holds a blank line
    after its header, the run ends with [FileNotFoundError],
    respectively [IndexError], after the two loads and the reading of
    the file, and every file is as it was. *)
Theorem process_corum_data_bad_table (species : string) (w : world)
    (core : Corum) (coex : Coex) (fname : string) :
  LoadCorum (title species) "core" = inr core ->
  Coexpression = inr coex ->
  classification_file species = Some fname ->
  let stopped :=
    {| files := files w;
       log := log w ++ [EvLoadCorum (title species) "core"; EvCoexpression;
                        EvOpenRead fname] |} in
  (files w !! fname = None ->
     process_corum_data float_str LoadCorum Coexpression species w
     = (inl FileNotFoundError, stopped))
  ∧ (files w !! fname = Some "" ->
       process_corum_data float_str LoadCorum Coexpression species w
       = (inl IndexError, stopped))
  ∧ (∀ text fields data,
       files w !! fname = Some text ->
       split_ws <$> file_lines text = fields :: data ->
       [] ∈ data ->
       process_corum_data float_str LoadCorum Coexpression species w
       = (inl IndexError, stopped)).
Proof.
  intros Hload Hcoex Hfile stopped.
  set (w2 := emit EvCoexpression (emit (EvLoadCorum (title species) "core") w)).
  assert (Hw3 : emit (EvOpenRead fname) w2 = stopped).
  { apply world_eq; [done|]. subst w2. cbn [log emit]. by rewrite <- !app_assoc. }
  assert (Hstep : ∀ r,
            load_data fname w2 = (r, stopped) ->
            process_corum_data float_str LoadCorum Coexpression species w
            = match r with
              | inl e => (inl e, stopped)
              | inr hd =>
                  match build_decay_defs hd.2 with
                  | inl e => (inl e, stopped)
                  | inr decay_defs =>
                      (do! _ := open_write (ofname species) in
                       do! _ := write (ofname species) header in
                       for_io (strucs core)
                         (process_struc float_str species core coex decay_defs))
                        stopped
                  end
              end).
  { intros r Hr. unfold process_corum_data. unfold io_bind at 1. rewrite Hload.
    unfold io_bind at 1. rewrite Hcoex. fold w2. unfold io_bind at 1.
    unfold classification_file in Hfile.
    repeat case_bool_decide; simplify_eq; unfold io_bind at 1; rewrite Hr;
      (destruct r as [e|hd]; [done|]); unfold io_ret;
      unfold io_bind at 1, lift at 1; cbn [ret];
      unfold io_bind at 1, lift at 1; by destruct (build_decay_defs hd.2). }
  split; [|split].
  - intros Hnone. rewrite (Hstep (inl FileNotFoundError)); [done|].
    unfold load_data, io_bind, open_read. cbn [files] in *.
    replace (files w2 !! fname) with (@None string) by done. by rewrite Hw3.
  - intros Hempty. rewrite (Hstep (inl IndexError)); [done|].
    unfold load_data, io_bind, open_read, lift.
    replace (files w2 !! fname) with (Some "") by done. simpl. by rewrite Hw3.
  - intros text fields data Htext Hlines Hblank.
    rewrite (Hstep (inr (fields, data))).
    + simpl. by rewrite build_decay_defs_blank.
    + rewrite (load_data_read fname w2 text fields data); [by rewrite Hw3|done|done].
Qed.

End Files.

(** ** The grouping of the Significance Tester *)

Lemma group_init (data : list (list string)) (ks : list string) :
  Forall (fun line => line ≠ []) data ->
  foldM (fun d line => let* k := getitem line 0 in
                       ret (dict_set d k ([] : list (list string))))
        (tabulate (fun _ => []) ks) data
  = inr (tabulate (fun _ => [])
           (ks ++ filter (fun x => x ∉ ks) (distinct (omap head data)))).
Proof.
  intros Hne. revert ks. induction Hne as [|line data Hline Hne IH]; intros ks.
  - simpl. by rewrite app_nil_r.
  - destruct line as [|k fields]; [done|]. simpl.
    destruct (decide (k ∈ ks)) as [Hin|Hnin].
    + rewrite (dict_set_tabulate_same (fun _ => [])) by done.
      rewrite IH. rewrite filter_cons_False by naive_solver.
      rewrite list_filter_filter. do 3 f_equal.
      apply list_filter_iff. intros y. naive_solver.
    + rewrite (dict_set_tabulate_new (fun _ => [])) by done.
      rewrite IH. rewrite filter_cons_True by done.
      rewrite list_filter_filter, <- app_assoc. simpl. do 4 f_equal.
      apply list_filter_iff. intros y. rewrite elem_of_app, list_elem_of_singleton.
      naive_solver.
Qed.

Lemma group_append (data : list (list string)) (ks : list string)
    (f : string -> list (list string)) :
  NoDup ks -> Forall (fun line => ∃ k, head line = Some k ∧ k ∈ ks) data ->
  foldM (fun d line =>
           let* k := getitem line 0 in
           let* rows := dict_getitem d k in
           ret (dict_set d k (rows ++ [slice_m3_m1 line])))
        (tabulate f ks) data
  = inr (tabulate (fun k => f k ++ rows_of data k) ks).
Proof.
  intros Hnd Hdata. revert f. induction Hdata as [|line data Hline Hdata IH]; intros f.
  - simpl. f_equal. apply tabulate_ext. intros k _. unfold rows_of. simpl.
    by rewrite app_nil_r.
  - destruct Hline as (k & Hk & Hin). destruct line as [|k' fields]; [done|].
    simpl in Hk. simplify_eq. simpl. unfold dict_getitem.
    rewrite dict_get_tabulate by done. simpl.
    rewrite dict_set_tabulate by done. rewrite IH. f_equal.
    apply tabulate_ext. intros k' Hk'. unfold rows_of.
    rewrite filter_cons. simpl. case_bool_decide as Heq.
    + subst k'. rewrite decide_True by done. simpl. by rewrite <- app_assoc.
    + rewrite decide_False by congruence. done.
Qed.

(** X13.  The grouping keeps the complex ids in the order of their first
    line and gives each id the (value, label) slices of its lines in line
    order; a line without any field raises [IndexError]. *)
Theorem group_rows_grouped (data : list (list string)) :
  (Forall (fun line => line ≠ []) data ->
     group_rows data
     = inr (tabulate (rows_of data) (distinct (omap head data))))
  ∧ ([] ∈ data -> group_rows data = inl IndexError).
Proof.
  split.
  - intros Hne. unfold group_rows.
    pose proof (group_init data [] Hne) as Hinit.
    assert (Hks : filter (fun x => x ∉ []) (distinct (omap head data))
                  = distinct (omap head data)).
    { apply filter_all. intros x _. apply not_elem_of_nil. }
    rewrite Hks in Hinit. simpl in Hinit. rewrite Hinit. clear Hinit Hks.
    cbn [bind]. rewrite group_append; [done|apply distinct_NoDup|].
    apply Forall_forall. intros line Hline. rewrite Forall_forall in Hne.
    destruct line as [|k fields]; [by destruct (Hne [] Hline)|].
    exists k. split; [done|]. apply distinct_elem_of.
    apply list_elem_of_omap. by exists (k :: fields).
  - intros Hin. unfold group_rows.
    assert (Hfail : ∀ d : dict (list (list string)),
              foldM (fun d line => let* k := getitem line 0 in ret (dict_set d k []))
                    d data = inl IndexError).
    { induction data as [|line data IH]; intros d; [by apply elem_of_nil in Hin|].
      apply elem_of_cons in Hin as [<-|Hin]; [done|].
      simpl. destruct line as [|k fields]; [done|]. simpl. by apply IH. }
    by rewrite Hfail.
Qed.

(** ** Null mode, the counters and the partition *)

Lemma zip_relabel_fields (comp : list (list string)) (labels : list string) :
  length labels = length comp ->
  row_value <$> zip_with (fun r l => [row_value r; l]) comp labels
  = row_value <$> comp
  ∧ row_label <$> zip_with (fun r l => [row_value r; l]) comp labels = labels.
Proof.
  revert labels. induction comp as [|r comp IH]; intros [|l labels] Hlen;
    try done. simpl in Hlen.
  destruct (IH labels) as [Hv Hl]; [lia|].
  cbn [zip_with]. rewrite !fmap_cons, Hv, Hl. done.
Qed.

Lemma labels_collect_short (comp : list (list string)) acc :
  Exists (fun r => (length r < 2)%nat) comp ->
  foldM (fun acc subunit => let* d := getitem subunit 1 in ret (acc ++ [d]))
        acc comp
  = inl IndexError.
Proof.
  intros Hex. revert acc. induction comp as [|r comp IH]; intros acc.
  - by apply Exists_nil in Hex.
  - simpl. unfold getitem. destruct (r !! 1%nat) as [d|] eqn:Hd; simpl; [|done].
    apply IH. apply Exists_cons in Hex as [Hr|Hex]; [|done].
    apply lookup_lt_Some in Hd. lia.
Qed.

(** X14.  The shuffle block of null mode keeps every value in its row and
    rearranges the labels among the rows: the rows stay (value, label)
    pairs, as many as before, and the labels are a permutation of the
    former labels.  A row with fewer than two fields raises
    [IndexError]. *)
Theorem shuffle_labels_permutes (g : rng) (comp : list (list string)) :
  (pairs comp ->
     ∃ g' comp',
       shuffle_labels g comp = inr (g', comp')
       ∧ pairs comp'
       ∧ length comp' = length comp
       ∧ row_value <$> comp' = row_value <$> comp
       ∧ row_label <$> comp' ≡ₚ row_label <$> comp)
  ∧ (Exists (fun r => (length r < 2)%nat) comp ->
       shuffle_labels g comp = inl IndexError).
Proof.
  split.
  - intros Hp. rewrite shuffle_labels_relabelled by done.
    exists (relabelled g comp).1, (relabelled g comp).2.
    split; [by destruct (relabelled g comp)|].
    split; [apply relabelled_pairs|]. split; [by apply relabelled_length|].
    unfold relabelled. cbn [snd].
    destruct (zip_relabel_fields comp (random_shuffle g (row_label <$> comp)).2)
      as [Hv Hl].
    { by rewrite random_shuffle_length, length_fmap. }
    rewrite Hv, Hl. split; [done|]. apply random_shuffle_Permutation.
  - intros Hex. unfold shuffle_labels. by rewrite labels_collect_short.
Qed.

Section Counters.

Variable py_float : string -> option float.




Lemma partition_rows_outcome comp n e :
  pairs comp ->
  match foldM (partition_step py_float) (n, e) comp with
  | inr ne =>
      ne = (n ++ row_values py_float "NED" comp,
            e ++ row_values py_float "ED" comp)
      ∧ Forall (fun r => ¬ unreadable py_float r) comp
  | inl err => err = ValueError ∧ Exists (unreadable py_float) comp
  end.
Proof.
  intros Hp. revert n e. induction Hp as [|r comp Hr Hp IH]; intros n e.
  - simpl. by rewrite !app_nil_r.
  - destruct r as [|v [|l [|]]]; try done.
    rewrite !row_values_cons.
    change (foldM (partition_step py_float) (n, e) ([v; l] :: comp))
      with (let* acc := partition_step py_float (n, e) [v; l] in
            foldM (partition_step py_float) acc comp).
    unfold partition_step. cbn [getitem lookup list_lookup bind ret fst snd].
    assert (Hcont : ∀ n' e',
              ¬ unreadable py_float [v; l] ->
              match foldM (partition_step py_float) (n', e') comp with
              | inr ne =>
                  ne = (n' ++ row_values py_float "NED" comp,
                        e' ++ row_values py_float "ED" comp)
                  ∧ Forall (fun r => ¬ unreadable py_float r) ([v; l] :: comp)
              | inl err =>
                  err = ValueError
                  ∧ Exists (unreadable py_float) ([v; l] :: comp)
              end).
    { intros n' e' Hok. specialize (IH n' e').
      destruct (foldM _ (n', e') comp) as [err|ne].
      - destruct IH as [-> Hex]. split; [done|]. by right.
      - destruct IH as [-> Hall]. split; [done|]. by constructor. }
    destruct (decide (v = "NA")) as [Hna|Hna].
    + rewrite (bool_decide_eq_true_2 (v = "NA")) by done.
      rewrite !(bool_decide_eq_false_2 (v ≠ "NA" ∧ _)) by naive_solver.
      cbn [bind ret app]. apply Hcont. intros (Hv & _). by apply Hv.
    + rewrite (bool_decide_eq_false_2 (v = "NA")) by done.
      unfold float_of.
      destruct (decide (l = "NED")) as [Hned|Hned].
      * rewrite (bool_decide_eq_true_2 (l = "NED")) by done.
        rewrite (bool_decide_eq_true_2 (v ≠ "NA" ∧ l = "NED")) by done.
        rewrite (bool_decide_eq_false_2 (v ≠ "NA" ∧ l = "ED"))
          by (subst l; naive_solver).
        destruct (py_float v) as [x|] eqn:Hx; cbn [bind ret raise fst snd option_list].
        -- assert (Hok : ¬ unreadable py_float [v; l]).
           { intros (_ & _ & Hnone). unfold row_value in Hnone. simpl in Hnone.
             congruence. }
           pose proof (Hcont (n ++ [x]) e Hok) as Hgo.
           rewrite <- !app_assoc in Hgo. exact Hgo.
        -- split; [done|]. left. unfold unreadable, row_value, row_label. simpl.
           naive_solver.
      * rewrite (bool_decide_eq_false_2 (l = "NED")) by done.
        rewrite (bool_decide_eq_false_2 (v ≠ "NA" ∧ l = "NED")) by naive_solver.
        destruct (decide (l = "ED")) as [Hed|Hed].
        -- rewrite (bool_decide_eq_true_2 (l = "ED")) by done.
           rewrite (bool_decide_eq_true_2 (v ≠ "NA" ∧ l = "ED")) by done.
           destruct (py_float v) as [x|] eqn:Hx;
             cbn [bind ret raise fst snd option_list].
           ++ assert (Hok : ¬ unreadable py_float [v; l]).
              { intros (_ & _ & Hnone). unfold row_value in Hnone. simpl in Hnone.
                congruence. }
              pose proof (Hcont n (e ++ [x]) Hok) as Hgo.
              rewrite <- !app_assoc in Hgo. exact Hgo.
           ++ split; [done|]. left. unfold unreadable, row_value, row_label. simpl.
              naive_solver.
        -- rewrite (bool_decide_eq_false_2 (l = "ED")) by done.
           rewrite (bool_decide_eq_false_2 (v ≠ "NA" ∧ l = "ED")) by naive_solver.
           cbn [bind ret app]. apply Hcont. intros (_ & Hl & _).
           unfold row_label in Hl. simpl in Hl. naive_solver.
Qed.

(** X16.  [float] is applied only to the values of the rows labelled NED
    or ED whose value is not ['NA']: on (value, label) rows the partition
    loop raises [ValueError] exactly when such a value is not a number,
    and otherwise returns the NED values and the ED values in row order,
    whatever the rows with other labels hold. *)
Theorem partition_rows_reads (comp : list (list string)) :
  pairs comp ->
  (Exists (unreadable py_float) comp ->
     partition_rows py_float comp = inl ValueError)
  ∧ (Forall (fun r => ¬ unreadable py_float r) comp ->
       partition_rows py_float comp
       = inr (row_values py_float "NED" comp, row_values py_float "ED" comp)).
Proof.
  intros Hp. pose proof (partition_rows_outcome comp [] [] Hp) as Hout.
  unfold partition_rows.
  destruct (foldM (partition_step py_float) ([], []) comp) as [err|ne].
  - destruct Hout as [-> Hex]. split; [done|]. intros Hall.
    apply Exists_exists in Hex as (r & Hin & Hbad).
    rewrite Forall_forall in Hall. by destruct (Hall r Hin).
  - destruct Hout as [-> Hall]. split; [|done]. intros Hex.
    apply Exists_exists in Hex as (r & Hin & Hbad).
    rewrite Forall_forall in Hall. by destruct (Hall r Hin).
Qed.

End Counters.

(** ** [main] *)

(** X17.  [main] reads the combined table and changes no file: when the
    table is missing it raises [FileNotFoundError], and otherwise it
    reports 0 successes in 0 trials with p-value one; the outcome does
    not depend on the shuffle flag nor on the generator, which are never
    consulted. *)
Theorem main_outcome (py_float : string -> option float) (rand : bool)
    (g : rng) (w : world) :
  (main py_float rand g w).2
  = emit (EvOpenRead "data/coexpressdb_corum_combined.tsv") w
  ∧ (files w !! "data/coexpressdb_corum_combined.tsv" = None ->
       (main py_float rand g w).1 = inl FileNotFoundError)
  ∧ (is_Some (files w !! "data/coexpressdb_corum_combined.tsv") ->
       (main py_float rand g w).1 = inr (0%nat, 0%nat, Fin 1%Qc))
  ∧ ∀ rand' g', main py_float rand' g' w = main py_float rand g w.
Proof.
  assert (Hrun : ∀ r h,
            main py_float r h w
            = (match files w !! "data/coexpressdb_corum_combined.tsv" with
               | Some _ => inr (0%nat, 0%nat, Fin 1%Qc)
               | None => inl FileNotFoundError
               end,
               emit (EvOpenRead "data/coexpressdb_corum_combined.tsv") w)).
  { intros r h. unfold main, analyse_corum_data, io_bind, open_read, lift.
    destruct (files w !! _) as [text|]; [|done].
    unfold ret at 1. rewrite read_rows_nil. cbn [group_rows foldM bind ret].
    unfold analyse_strucs. cbn [dict_keys fmap list_fmap foldM bind ret].
    cbn [t_success t_trials]. by rewrite binom_test_0_0. }
  split; [by rewrite Hrun|]. split; [|split].
  - intros Hnone. by rewrite Hrun, Hnone.
  - intros [text Htext]. by rewrite Hrun, Htext.
  - intros rand' g'. by rewrite !Hrun.
Qed.

(** * Further instances on the sample data *)

(** Id 3 of [demo_comp] resolves to P3. *)
Lemma match_entrez_to_uniprot_aligned_witness :
  ∃ i j slot uslot,
    match_entrez_to_uniprot demo_comp "3" = inr (VStr "P3")
    ∧ entrez demo_comp !! i = Some slot ∧ uniprot demo_comp !! i = Some uslot
    ∧ slot !! j = Some "3" ∧ uslot !! j = Some "P3".
Proof.
  destruct (match_entrez_to_uniprot_aligned demo_comp "3")
    as (i & j & slot & uslot & u & Hrun & Hi & Hu & Hj & Huj & _).
  - unfold aligned. repeat constructor.
  - unfold member_of. by_evaluation.
  - assert (u = "P3") as -> by (vm_compute in Hrun; congruence).
    exists i, j, slot, uslot. repeat split; assumption.
Defined.

(** Scores on the self-pairs change nothing. *)
Lemma calculate_avg_coexpression_pairs_only_witness :
  calculate_avg_coexpression demo_coex ["1"; "2"; "3"]
  = calculate_avg_coexpression self_coex ["1"; "2"; "3"].
Proof.
  apply calculate_avg_coexpression_pairs_only.
  intros a b _ _ Hne. unfold self_coex. by rewrite bool_decide_eq_false_2.
Defined.

(** The two ids of a dimer get the same average. *)
Lemma calculate_avg_coexpression_dimer_witness :
  dict_get [("1", VFloat (np_mean [Fin 1%Qc])); ("2", VFloat (np_mean [Fin 1%Qc]))] "1"
  = dict_get [("1", VFloat (np_mean [Fin 1%Qc])); ("2", VFloat (np_mean [Fin 1%Qc]))] "2".
Proof.
  apply (calculate_avg_coexpression_dimer demo_coex ["1"; "2"] "1" "2").
  - done.
  - by_evaluation.
  - by_evaluation.
  - intros x Hx. apply elem_of_cons in Hx as [->|Hx]; [by left|].
    apply list_elem_of_singleton in Hx as ->. by right.
  - reflexivity.
  - reflexivity.
Defined.

(** The candidate with a coexpression value wins in both orders. *)
Lemma get_best_from_multiple_subs_priority_witness :
  get_best_from_multiple_subs demo_str "human" demo_decay "c1" demo_comp
    priority_avg ["3"; "4"]
  = inr ["c1"; "4"; "P4"; "1.0"; "NA"; "human"]
  ∧ get_best_from_multiple_subs demo_str "human" demo_decay "c1" demo_comp
      priority_avg ["4"; "3"]
    = inr ["c1"; "4"; "P4"; "1.0"; "NA"; "human"].
Proof.
  split.
  - apply (get_best_from_multiple_subs_priority demo_str "human" demo_decay "c1"
             demo_comp priority_avg ["3"; "4"] ["3"; "4"]
             [record_of "human" demo_decay "c1" "3" "P3" (VStr "NA")] []
             (record_of "human" demo_decay "c1" "4" "P4" (VFloat (Fin 1%Qc)))).
    + repeat constructor.
    + apply Forall_cons. split; [|constructor]. right. by vm_compute.
    + done.
  - apply (get_best_from_multiple_subs_priority demo_str "human" demo_decay "c1"
             demo_comp priority_avg ["3"; "4"] ["4"; "3"]
             [record_of "human" demo_decay "c1" "3" "P3" (VStr "NA")] []
             (record_of "human" demo_decay "c1" "4" "P4" (VFloat (Fin 1%Qc)))).
    + repeat constructor.
    + apply Forall_cons. split; [|constructor]. right. by vm_compute.
    + apply perm_swap.
Defined.

(** With equal keys the first id is chosen. *)
Lemma get_best_from_multiple_subs_first_witness :
  get_best_from_multiple_subs demo_str "human" ∅ "c1" demo_comp demo_avg
    ["2"; "3"]
  = inr ["c1"; "2"; "P2"; "1.5"; "NA"; "human"].
Proof.
  rewrite (get_best_from_multiple_subs_first demo_str "human" ∅ "c1" demo_comp
             demo_avg ["2"; "3"]
             (record_of "human" ∅ "c1" "2" "P2"
                (VFloat (np_mean [Fin 1%Qc; Fin two])))
             [record_of "human" ∅ "c1" "3" "P3"
                (VFloat (np_mean [Fin two; Fin two]))]).
  - by vm_compute.
  - repeat constructor.
  - repeat constructor.
Defined.

(** The row of the ambiguous slot of [demo_comp], and the failure on the
    slot of [broken_comp] that has no secondary id. *)
Lemma slot_info_shape_witness :
  match slot_info demo_str "human" demo_decay "c1" demo_comp demo_avg ["2"; "3"] with
  | inr row => length row = 6%nat
  | inl _ => False
  end
  ∧ slot_info demo_str "human" demo_decay "c1" broken_comp demo_avg ["4"]
    = inl IndexError.
Proof.
  split.
  - pose proof (slot_info_shape demo_str "human" demo_decay "c1" demo_comp
                  demo_coex demo_avg eq_refl ["2"; "3"]) as Hshape.
    destruct (slot_info _ _ _ _ _ _ _) as [e|row] eqn:Hrun.
    + vm_compute in Hrun. discriminate Hrun.
    + apply Hshape. by_evaluation.
  - pose proof (slot_info_shape demo_str "human" demo_decay "c1" broken_comp
                  demo_coex demo_avg eq_refl ["4"]) as Hshape.
    destruct (slot_info _ _ _ _ _ _ _) as [e|row] eqn:Hrun.
    + destruct Hshape as [-> _]; [by_evaluation|done].
    + vm_compute in Hrun. discriminate Hrun.
Defined.

Lemma demo_core_well_formed : well_formed demo_core.
Proof.
  intros struc Hin. apply list_elem_of_singleton in Hin as ->.
  exists demo_comp. split; [reflexivity|]. split.
  - unfold aligned. repeat constructor.
  - repeat constructor; done.
Qed.

(** The complete run on the sample world writes [demo_table]. *)
Lemma process_corum_data_complete_witness :
  ∃ lines,
    (process_corum_data demo_str demo_LoadCorum demo_Coexpression "human"
       demo_world).1 = inr tt
    ∧ files (process_corum_data demo_str demo_LoadCorum demo_Coexpression "human"
               demo_world).2
      = <[ofname "human" := text_of (header :: lines)]> (files demo_world)
    ∧ length lines = 3%nat.
Proof.
  destruct (process_corum_data_complete demo_str demo_LoadCorum demo_Coexpression
              "human" demo_world demo_core demo_coex "data/NED_human.txt"
              demo_decay_file ["id"; "halflife"; "def"]
              [["P1"; "10"; "ED"]; ["P3"; "20"; "NED"]])
    as (lines & Hrun & Hrows).
  - reflexivity.
  - reflexivity.
  - reflexivity.
  - reflexivity.
  - reflexivity.
  - repeat constructor; done.
  - apply demo_core_well_formed.
  - exists lines. rewrite Hrun. split; [done|]. split; [done|].
    apply Forall2_length in Hrows. rewrite <- Hrows. reflexivity.
Defined.

(** Without the classification file the run stops before the output file
    is opened. *)
Lemma process_corum_data_bad_table_witness :
  process_corum_data demo_str demo_LoadCorum demo_Coexpression "human" empty_world
  = (inl FileNotFoundError,
     {| files := ∅;
        log := [EvLoadCorum "Human" "core"; EvCoexpression;
                EvOpenRead "data/NED_human.txt"] |}).
Proof.
  destruct (process_corum_data_bad_table demo_str demo_LoadCorum
              demo_Coexpression "human" empty_world demo_core demo_coex
              "data/NED_human.txt" eq_refl eq_refl eq_refl) as (Hmissing & _).
  apply Hmissing. reflexivity.
Defined.


(** A value that is not a number under the label ED. *)
Lemma partition_rows_reads_witness :
  partition_rows demo_float unreadable_comp = inl ValueError.
Proof.
  apply (partition_rows_reads demo_float unreadable_comp).
  - unfold pairs. by_evaluation.
  - apply Exists_cons_tl, Exists_cons_hd.
    split; [done|]. split; [by right|reflexivity].
Defined.

(** ** The lines of the table, written and read *)

















